(** * Word-frequency MapReduce (word_frequency.py): a shallow embedding

    The development follows [src/word_frequency.py]:
    - [lower], [re_findall_words] : [text_segment.lower()] and
      [re.findall(r"\b\w+\b", ...)];
    - [Counter], [dict_add]      : [collections.Counter] and the
      [defaultdict(int)] update [d[k] += v];
    - [map_worker]               : one worker's tokenise / filter / merge;
    - [segments], [map_reduce]   : the cutting of the text and the threads;
    - [most_common]              : the ranking used by [visualize_top_words].

    A Python [str] is modelled as the list of its code points, restricted to
    the Latin-1 range (type [ascii], codes 0..255), on which [str.lower] works
    character by character.  A [dict] is an association list in insertion
    order, the order Python dictionaries iterate in. *)

From Stdlib Require Import List Ascii String ZArith Lia Bool Permutation Sorted Arith.
Import ListNotations.
Open Scope Z_scope.

(** ** Characters and strings *)

Definition str := list ascii.

(** Literals are written as Rocq strings. *)
Definition lit (x : string) : str := list_ascii_of_string x.

Definition code (c : ascii) : Z := Z.of_N (N_of_ascii c).

Definition between (lo hi x : Z) : bool := (lo <=? x) && (x <=? hi).

(** The class [\w] of a Unicode pattern, on code points 0..255: alphanumeric
    characters (letters, decimal digits and other numeric characters) and the
    underscore. *)
Definition is_word (c : ascii) : bool :=
  let n := code c in
  between 48 57 n || between 65 90 n || (n =? 95) || between 97 122 n
  || (n =? 170) || between 178 179 n || (n =? 181) || between 185 186 n
  || between 188 190 n || between 192 214 n || between 216 246 n
  || between 248 255 n.

(** [str.lower] on one code point of the Latin-1 range. *)
Definition lower_char (c : ascii) : ascii :=
  let n := code c in
  if between 65 90 n || between 192 214 n || between 216 222 n
  then ascii_of_N (Z.to_N (n + 32))
  else c.

(** [str.lower] on a text of the Latin-1 range, where it works character
    by character (outside that range it depends on the context). *)
Definition lower (x : str) : str := map lower_char x.

Definition str_eqb (a b : str) : bool :=
  if list_eq_dec ascii_dec a b then true else false.

(** ** The regular expression [\b\w+\b] *)

(** [prev] is the character before the current position, if any. *)
Definition is_word_opt (c : option ascii) : bool :=
  match c with Some c => is_word c | None => false end.

(** [\b]: exactly one side of the position is a word character. *)
Definition boundary (prev : option ascii) (rest : str) : bool :=
  xorb (is_word_opt prev) (is_word_opt (hd_error rest)).

(** All ways for the greedy [\w+] to match a prefix of [x], longest first,
    each with the text that is left. *)
Fixpoint word_plus (x : str) : list (str * str) :=
  match x with
  | [] => []
  | c :: r =>
      if is_word c
      then map (fun mr => (c :: fst mr, snd mr)) (word_plus r) ++ [([c], r)]
      else []
  end.

(** A match of [\b\w+\b] starting at the current position: the first
    candidate of [\w+] after which [\b] holds.  A candidate is never empty,
    so the default of [last] is not used. *)
Definition match_at (prev : option ascii) (x : str) : option str :=
  if boundary prev x
  then option_map fst
         (find (fun mr => boundary (Some (last (fst mr) "000"%char)) (snd mr))
               (word_plus x))
  else None.

(** [re.findall]: scan left to right; after a match the search resumes at
    its end ([skip] counts the characters of the last match still to pass). *)
Fixpoint findall_from (prev : option ascii) (x : str) (skip : nat) : list str :=
  match x with
  | [] => []
  | c :: r =>
      match skip with
      | S k => findall_from (Some c) r k
      | O =>
          match match_at prev x with
          | Some m => m :: findall_from (Some c) r (List.length m - 1)
          | None => findall_from (Some c) r 0
          end
      end
  end.

Definition re_findall_words (x : str) : list str := findall_from None x 0.

(** ** Dictionaries *)

(** A [dict] from words to integers, in insertion order. *)
Definition dict := list (str * Z).

Fixpoint dict_get (d : dict) (k : str) : option Z :=
  match d with
  | [] => None
  | (k', v) :: r => if str_eqb k k' then Some v else dict_get r k
  end.

(** The count of [k], with 0 for a missing key ([defaultdict(int)],
    [Counter.get(k, 0)]). *)
Definition count_of (d : dict) (k : str) : Z :=
  match dict_get d k with Some v => v | None => 0 end.

(** [d[k] += v] on a [defaultdict(int)]: an existing entry keeps its place, a
    new one goes last. *)
Fixpoint dict_add (d : dict) (k : str) (v : Z) : dict :=
  match d with
  | [] => [(k, 0 + v)]
  | (k', v') :: r =>
      if str_eqb k k' then (k', v' + v) :: r else (k', v') :: dict_add r k v
  end.

Definition keys (d : dict) : list str := map fst d.

(** Equality of dictionaries ([==] in Python): the same keys with the same
    values, whatever the insertion order. *)
Definition dict_equiv (d1 d2 : dict) : Prop :=
  forall k, dict_get d1 k = dict_get d2 k.

(** [collections.Counter(words)]: one increment per element. *)
Definition Counter (words : list str) : dict :=
  fold_left (fun d w => dict_add d w 1) words [].

(** ** The worker *)

(** [word not in stop_words]. *)
Definition in_set (stop_words : list str) (w : str) : bool :=
  existsb (str_eqb w) stop_words.

Definition tokens (stop_words : list str) (text_segment : str) : list str :=
  filter (fun word => negb (in_set stop_words word))
         (re_findall_words (lower text_segment)).

(** [for word, count in local_counter.items(): partial_counts[word] += count] *)
Definition merge (local_counter partial_counts : dict) : dict :=
  fold_left (fun acc wc => dict_add acc (fst wc) (snd wc))
            local_counter partial_counts.

(** [map_worker] returns the shared dictionary as it leaves it. *)
Definition map_worker (text_segment : str) (partial_counts : dict)
    (stop_words : list str) : dict :=
  let words := tokens stop_words text_segment in
  let local_counter := Counter words in
  merge local_counter partial_counts.

(** ** Slices and segments *)

(** A slice bound brought into [0, len], as Python does. *)
Definition adjust (len i : Z) : Z :=
  if i <? 0 then Z.max 0 (i + len) else Z.min i len.

(** The characters of [x] at offsets [lo <= k < hi]. *)
Definition span (x : str) (lo hi : Z) : str :=
  firstn (Z.to_nat (hi - lo)) (skipn (Z.to_nat lo) x).

Definition len (x : str) : Z := Z.of_nat (List.length x).

(** [x[a:b]] and [x[a:]] as the pair of offsets they select. *)
Definition slice_bounds (x : str) (a b : Z) : Z * Z :=
  let lo := adjust (len x) a in
  let hi := adjust (len x) b in
  (lo, Z.max lo hi).

Definition slice_from_bounds (x : str) (a : Z) : Z * Z :=
  (adjust (len x) a, len x).

(** [range(n)] *)
Definition range (n : Z) : list Z := map Z.of_nat (seq 0 (Z.to_nat n)).

(** The offsets of segment [i]. *)
Definition segment_bounds (text : str) (num_threads i : Z) : Z * Z :=
  let segment_length := len text / num_threads in
  if negb (i =? num_threads - 1)
  then slice_bounds text (i * segment_length) ((i + 1) * segment_length)
  else slice_from_bounds text (i * segment_length).

Definition segment (text : str) (num_threads i : Z) : str :=
  let b := segment_bounds text num_threads i in
  span text (fst b) (snd b).

Definition segments (text : str) (num_threads : Z) : list str :=
  map (segment text num_threads) (range num_threads).

(** ** The orchestrator *)

Inductive exn := ZeroDivisionError.

Inductive result (A : Type) :=
| Return (a : A)
| Raise (e : exn).
Arguments Return {A} a.
Arguments Raise {A} e.

(** What a thread's target does with the shared dictionary: it returns, or
    it raises and leaves the dictionary as it was at that point. *)
Inductive outcome :=
| Returned (d : dict)
| Raised (d : dict).

(** [Thread.run]: an exception of the target ends the thread and goes to
    [threading.excepthook]; [join] returns normally either way. *)
Definition thread_run (target : str -> dict -> outcome)
    (partial_counts : dict) (segment : str) : dict :=
  match target segment partial_counts with
  | Returned d => d
  | Raised d => d
  end.

(** The threads take the lock one after the other, in the given [order]. *)
Definition run_threads (target : str -> dict -> outcome)
    (order : list str) (partial_counts : dict) : dict :=
  fold_left (thread_run target) order partial_counts.

(** [map_reduce] with any thread target.  The division by [num_threads]
    comes first; tokenising is local to a worker and every merge happens
    under the lock, so a run is the sequence of the workers' merges, here in
    the order in which the threads are started.  The threads may take the
    lock in any other order: such a run is [run_threads] on a permutation
    of the segments. *)
Definition map_reduce_with (target : str -> dict -> outcome)
    (text : str) (num_threads : Z) : result dict :=
  if num_threads =? 0 then Raise ZeroDivisionError
  else Return (run_threads target (segments text num_threads) []).

Definition worker_target (stop_words : list str) : str -> dict -> outcome :=
  fun segment partial_counts =>
    Returned (map_worker segment partial_counts stop_words).

(** [map_reduce]; [stop_words] stands for the module constant [STOP_WORDS]. *)
Definition map_reduce (stop_words : list str) (text : str)
    (num_threads : Z) : result dict :=
  map_reduce_with (worker_target stop_words) text num_threads.

(** ** The ranker *)

(** Insertion into a list sorted by count, descending; [x] comes before the
    entries of equal count. *)
Fixpoint insert_desc (x : str * Z) (l : list (str * Z)) : list (str * Z) :=
  match l with
  | [] => [x]
  | y :: r => if snd y <=? snd x then x :: l else y :: insert_desc x r
  end.

(** [sorted(items, key=itemgetter(1), reverse=True)]: stable. *)
Definition sorted_desc (items : list (str * Z)) : list (str * Z) :=
  fold_right insert_desc [] items.

(** [heapq.nlargest(n, items, key=itemgetter(1))]: the first [n] of the
    stable descending sort, nothing for [n <= 0]. *)
Definition nlargest (n : Z) (items : list (str * Z)) : list (str * Z) :=
  if n <=? 0 then [] else firstn (Z.to_nat n) (sorted_desc items).

(** [collections.Counter(word_counts).most_common(top_n)] *)
Definition most_common (word_counts : dict) (top_n : Z) : list (str * Z) :=
  nlargest top_n word_counts.

(** The stop words and the text of the spec's example. *)
Definition stop_the_on : list str := [lit "the"; lit "on"].
Definition cat_text : str := lit "The cat sat on the mat. The cat ran.".

(** ** Vocabulary of the properties *)

(** Equality of words is decidable. *)
Definition str_eq_dec : forall a b : str, {a = b} + {a <> b} :=
  list_eq_dec ascii_dec.

(** Number of occurrences of [w] in a list of words. *)
Definition occ (words : list str) (w : str) : Z :=
  Z.of_nat (count_occ str_eq_dec words w).

(** A dictionary holds a key once. *)
Definition dict_wf (d : dict) : Prop := NoDup (keys d).

(** A finished run is a token when it is not empty. *)
Definition push_run (h : str) (t : list str) : list str :=
  match h with [] => t | _ => h :: t end.

(** The run of word characters at the head of [x] (possibly empty) and the
    maximal runs that come after it. *)
Fixpoint runs_from (x : str) : str * list str :=
  match x with
  | [] => ([], [])
  | c :: r =>
      let hr := runs_from r in
      if is_word c then (c :: fst hr, snd hr)
      else ([], push_run (fst hr) (snd hr))
  end.

(** The maximal runs of word characters of [x], left to right. *)
Definition word_runs (x : str) : list str :=
  push_run (fst (runs_from x)) (snd (runs_from x)).


(** [a] stands before [b] in the list. *)
Inductive before {A : Type} : list A -> A -> A -> Prop :=
| before_here a b l : In b l -> before (a :: l) a b
| before_later x a b l : before l a b -> before (x :: l) a b.

(** Count descending. *)
Definition count_ge (a b : str * Z) : Prop := snd b <= snd a.


(** The ties of every ranking follow the order [key_before] on words. *)
Definition ties_by_key (key_before : str -> str -> Prop) : Prop :=
  forall tbl n a b,
    dict_wf tbl -> 0 <= n ->
    before (most_common tbl n) a b -> snd a = snd b ->
    key_before (fst a) (fst b).

(** The sequential reference count, in the spec's words: a word that is a
    stop word or does not occur among the maximal runs of word characters
    of the lowercased text has no entry; any other word has its number of
    occurrences. *)
Definition reference_count (stop : list str) (text : str) (w : str)
  : option Z :=
  let n := occ (word_runs (lower text)) w in
  if in_set stop w || (n =? 0) then None else Some n.

(** ** The chart and the program *)

(** The data [visualize_top_words] hands to [plt.bar]: the words and the
    counts of [top_words], unzipped, or two empty lists when [top_words] is
    empty. *)
Definition chart_data (word_counts : dict) (top_n : Z) : list str * list Z :=
  let top_words := most_common word_counts top_n in
  match top_words with
  | [] => ([], [])
  | _ => (map fst top_words, map snd top_words)
  end.

(** What [requests.get] and [raise_for_status] give [download_text]: the
    text of the response, or a [RequestException]. *)
Inductive response :=
| ResponseText (text : str)
| RequestException.

(** How a run of [main] ends: the chart is shown, [download_text] leaves
    with [SystemExit], or an exception of [map_reduce] is not caught. *)
Inductive ending :=
| Shown (words : list str) (counts : list Z)
| SystemExit
| Uncaught (e : exn).

(** [download_text]: the text, or [SystemExit] for a [RequestException]. *)
Definition download_text (r : response) : option str :=
  match r with
  | ResponseText text => Some text
  | RequestException => None
  end.

(** [main], with the parsed [--top] and [--threads] and the answer of the
    network. *)
Definition main (stop_words : list str) (r : response) (top threads : Z)
  : ending :=
  match download_text r with
  | None => SystemExit
  | Some text =>
      match map_reduce stop_words text threads with
      | Raise e => Uncaught e
      | Return word_counts =>
          let wc := chart_data word_counts top in
          Shown (fst wc) (snd wc)
      end
  end.

(** ** More vocabulary *)

(** [sum(word_counts.values())] *)
Definition total_count (d : dict) : Z := fold_right Z.add 0 (map snd d).

(** A cut between [a] and [b] is clean when it does not separate two word
    characters. *)
Definition clean_cut (a b : str) : bool :=
  match rev a, b with
  | c1 :: _, c2 :: _ => negb (is_word c1 && is_word c2)
  | _, _ => true
  end.

(** Every cut of a list of segments is clean. *)
Fixpoint clean_cuts (segs : list str) : bool :=
  match segs with
  | [] => true
  | a :: rest => clean_cut a (List.concat rest) && clean_cuts rest
  end.

(** A word that [map_worker] can count: not empty, made of word characters,
    unchanged by [lower]. *)
Definition countable (w : str) : bool :=
  negb (str_eqb w []) && forallb is_word w && str_eqb (lower w) w.

(** The keys after [d[w] += v]: [w] goes last when it is new. *)
Definition add_key (ks : list str) (w : str) : list str :=
  if in_dec str_eq_dec w ks then ks else ks ++ [w].

(** A left-to-right scan for the runs of word characters: the runs that
    are finished and the run that is still open. *)
Definition scan_step (st : list str * str) (c : ascii) : list str * str :=
  if is_word c then (fst st, snd st ++ [c])
  else (fst st ++ push_run (snd st) [], []).

Definition scan (x : str) : list str * str := fold_left scan_step x ([], []).

(** * Properties *)

(** ** Equality of strings *)

Lemma str_eqb_eq (a b : str) : str_eqb a b = true <-> a = b.
Proof.
  unfold str_eqb. destruct (list_eq_dec ascii_dec a b); split; congruence.
Qed.

Lemma str_eqb_neq (a b : str) : str_eqb a b = false <-> a <> b.
Proof.
  unfold str_eqb. destruct (list_eq_dec ascii_dec a b); split; congruence.
Qed.

Lemma str_eqb_refl (a : str) : str_eqb a a = true.
Proof. now apply str_eqb_eq. Qed.

Ltac case_str a b :=
  let E := fresh "E" in
  destruct (str_eqb a b) eqn:E;
  [apply str_eqb_eq in E; subst | apply str_eqb_neq in E].

Lemma occ_nonneg words w : 0 <= occ words w.
Proof. unfold occ. lia. Qed.

Lemma occ_cons a words w :
  occ (a :: words) w = (if str_eqb w a then 1 else 0) + occ words w.
Proof.
  unfold occ. simpl. destruct (str_eq_dec a w) as [->|N].
  - rewrite str_eqb_refl. lia.
  - case_str w a; [congruence | lia].
Qed.

Lemma occ_zero_iff words w : occ words w = 0 <-> ~ In w words.
Proof.
  unfold occ. rewrite (count_occ_not_In str_eq_dec). lia.
Qed.

(** ** Dictionaries *)

Lemma dict_get_add d k v w :
  dict_get (dict_add d k v) w =
  if str_eqb w k then Some (count_of d k + v) else dict_get d w.
Proof.
  unfold count_of.
  induction d as [|[k' v'] r IH]; simpl.
  - case_str w k; reflexivity.
  - case_str k k'; simpl.
    + case_str w k'; reflexivity.
    + rewrite IH. case_str w k; [|reflexivity].
      case_str k k'; [congruence | reflexivity].
Qed.

Lemma count_of_add d k v w :
  count_of (dict_add d k v) w = count_of d w + (if str_eqb w k then v else 0).
Proof.
  unfold count_of at 1. rewrite dict_get_add.
  case_str w k; [reflexivity|]. unfold count_of. lia.
Qed.

Lemma dict_get_None_keys d k : dict_get d k = None <-> ~ In k (keys d).
Proof.
  induction d as [|[k' v'] r IH]; simpl; [tauto|].
  case_str k k'.
  - split; [discriminate | intros H; exfalso; apply H; now left].
  - rewrite IH. split; [intros H [?|?]; [congruence | tauto] | tauto].
Qed.

Lemma keys_dict_add d k v :
  keys (dict_add d k v) =
  if in_dec str_eq_dec k (keys d) then keys d else keys d ++ [k].
Proof.
  induction d as [|[k' v'] r IH]; simpl; [reflexivity|].
  case_str k k'; simpl.
  - destruct (str_eq_dec k' k') as [E'|N]; [reflexivity | congruence].
  - rewrite IH. destruct (str_eq_dec k' k) as [E'|E']; [congruence|].
    destruct (in_dec str_eq_dec k (keys r)); reflexivity.
Qed.

Lemma dict_add_wf d k v : dict_wf d -> dict_wf (dict_add d k v).
Proof.
  unfold dict_wf. intros H. rewrite keys_dict_add.
  destruct (in_dec str_eq_dec k (keys d)) as [|N]; [assumption|].
  apply NoDup_app; [assumption | repeat constructor; simpl; tauto |].
  intros x Hx [<-|[]]. contradiction.
Qed.

Lemma Counter_from_get words d k :
  dict_get (fold_left (fun d w => dict_add d w 1) words d) k =
  if occ words k =? 0 then dict_get d k
  else Some (count_of d k + occ words k).
Proof.
  revert d. induction words as [|a ws IH]; intros d; simpl.
  - reflexivity.
  - rewrite IH, occ_cons, count_of_add, dict_get_add.
    pose proof (occ_nonneg ws k) as Hn.
    case_str k a.
    + destruct (occ ws a =? 0) eqn:E1; destruct (1 + occ ws a =? 0) eqn:E2;
        try lia; f_equal; lia.
    + simpl (0 + _). destruct (occ ws k =? 0); [reflexivity | f_equal; lia].
Qed.

Lemma Counter_from_wf words d :
  dict_wf d -> dict_wf (fold_left (fun d w => dict_add d w 1) words d).
Proof.
  revert d. induction words as [|a ws IH]; intros d H; simpl; [assumption|].
  apply IH, dict_add_wf, H.
Qed.

Lemma Counter_get words k :
  dict_get (Counter words) k =
  if occ words k =? 0 then None else Some (occ words k).
Proof.
  unfold Counter. rewrite Counter_from_get. reflexivity.
Qed.

Lemma Counter_wf words : dict_wf (Counter words).
Proof. apply Counter_from_wf. constructor. Qed.

Lemma merge_get local acc k :
  dict_wf local ->
  dict_get (merge local acc) k =
  match dict_get local k with
  | Some c => Some (count_of acc k + c)
  | None => dict_get acc k
  end.
Proof.
  unfold merge, dict_wf. revert acc.
  induction local as [|[a c] ls IH]; intros acc H; simpl; [reflexivity|].
  inversion H as [|? ? Hnot Hnd]; subst.
  rewrite (IH _ Hnd), count_of_add, dict_get_add.
  case_str k a.
  - apply dict_get_None_keys in Hnot. rewrite Hnot. reflexivity.
  - destruct (dict_get ls k); [f_equal; lia | reflexivity].
Qed.

Lemma merge_wf local acc : dict_wf acc -> dict_wf (merge local acc).
Proof.
  unfold merge. revert acc.
  induction local as [|[a c] ls IH]; intros acc H; simpl; [assumption|].
  apply IH, dict_add_wf, H.
Qed.

(** What a worker leaves in the shared dictionary. *)
Lemma map_worker_get seg acc stop k :
  dict_get (map_worker seg acc stop) k =
  if occ (tokens stop seg) k =? 0 then dict_get acc k
  else Some (count_of acc k + occ (tokens stop seg) k).
Proof.
  unfold map_worker. rewrite merge_get by apply Counter_wf.
  rewrite Counter_get. destruct (occ (tokens stop seg) k =? 0); reflexivity.
Qed.

Lemma map_worker_wf seg acc stop :
  dict_wf acc -> dict_wf (map_worker seg acc stop).
Proof. apply merge_wf. Qed.

Lemma occ_app l1 l2 w : occ (l1 ++ l2) w = occ l1 w + occ l2 w.
Proof. unfold occ. rewrite count_occ_app. lia. Qed.

(** What the workers, run in the order [segs], leave in the dictionary. *)
Lemma run_threads_get stop segs acc k :
  dict_get (run_threads (worker_target stop) segs acc) k =
  if occ (flat_map (tokens stop) segs) k =? 0 then dict_get acc k
  else Some (count_of acc k + occ (flat_map (tokens stop) segs) k).
Proof.
  unfold run_threads. revert acc.
  induction segs as [|sg segs IH]; intros acc; simpl; [reflexivity|].
  rewrite IH.
  change (thread_run (worker_target stop) acc sg) with (map_worker sg acc stop).
  rewrite occ_app. unfold count_of at 1. rewrite map_worker_get.
  pose proof (occ_nonneg (tokens stop sg) k).
  pose proof (occ_nonneg (flat_map (tokens stop) segs) k).
  fold (count_of acc k).
  destruct (occ (tokens stop sg) k =? 0) eqn:E1;
    destruct (occ (flat_map (tokens stop) segs) k =? 0) eqn:E2;
    destruct (occ (tokens stop sg) k + occ (flat_map (tokens stop) segs) k =? 0)
      eqn:E3; try lia; try reflexivity; f_equal; unfold count_of; lia.
Qed.

Lemma run_threads_wf stop segs acc :
  dict_wf acc -> dict_wf (run_threads (worker_target stop) segs acc).
Proof.
  unfold run_threads. revert acc.
  induction segs as [|sg segs IH]; intros acc H; simpl; [assumption|].
  apply IH. unfold thread_run. simpl. apply map_worker_wf, H.
Qed.

Lemma occ_Permutation l1 l2 w : Permutation l1 l2 -> occ l1 w = occ l2 w.
Proof.
  intros H. unfold occ. f_equal. revert w.
  apply (Permutation_count_occ str_eq_dec). exact H.
Qed.

Lemma run_threads_Permutation stop order1 order2 acc :
  Permutation order1 order2 ->
  dict_equiv (run_threads (worker_target stop) order1 acc)
             (run_threads (worker_target stop) order2 acc).
Proof.
  intros H k. rewrite !run_threads_get.
  rewrite (occ_Permutation (flat_map (tokens stop) order1)
                           (flat_map (tokens stop) order2)); [reflexivity|].
  apply Permutation_flat_map, H.
Qed.

(** ** The tokens of [\b\w+\b] are the maximal runs of word characters *)

Lemma word_runs_cons c r :
  word_runs (c :: r) =
  if is_word c then (c :: fst (runs_from r)) :: snd (runs_from r)
  else word_runs r.
Proof.
  unfold word_runs. simpl. destruct (is_word c); reflexivity.
Qed.

Lemma later_runs_cons c r :
  snd (runs_from (c :: r)) =
  if is_word c then snd (runs_from r) else word_runs r.
Proof.
  unfold word_runs. simpl. destruct (is_word c); reflexivity.
Qed.

Lemma head_run_cons c r :
  fst (runs_from (c :: r)) = if is_word c then c :: fst (runs_from r) else [].
Proof. simpl. destruct (is_word c); reflexivity. Qed.

(** The first candidate of [\w+] is the whole run at the head, and [\b]
    holds after it: the greedy match never has to give characters back. *)
Lemma word_plus_first c r :
  is_word c = true ->
  exists rest tl,
    word_plus (c :: r) = (fst (runs_from (c :: r)), rest) :: tl /\
    boundary (Some (last (fst (runs_from (c :: r))) "000"%char)) rest = true.
Proof.
  revert c. induction r as [|c' r IH]; intros c Hc.
  - exists [], []. simpl. rewrite Hc. simpl. unfold boundary. simpl.
    rewrite Hc. split; reflexivity.
  - rewrite head_run_cons, Hc.
    destruct (is_word c') eqn:Hc'.
    + destruct (IH c' Hc') as (rest & tl & Hw & Hb).
      exists rest, (map (fun mr => (c :: fst mr, snd mr)) tl ++ [([c], c' :: r)]).
      change (word_plus (c :: c' :: r)) with
        (if is_word c
         then map (fun mr => (c :: fst mr, snd mr)) (word_plus (c' :: r))
              ++ [([c], c' :: r)]
         else []).
      rewrite Hc, Hw. split; [reflexivity|].
      rewrite head_run_cons, Hc' in *. exact Hb.
    + exists (c' :: r), []. rewrite head_run_cons, Hc'.
      simpl. rewrite Hc, Hc'. simpl. unfold boundary. simpl.
      rewrite Hc, Hc'. split; reflexivity.
Qed.

Lemma match_at_spec prev c r :
  match_at prev (c :: r) =
  if is_word c && negb (is_word_opt prev)
  then Some (c :: fst (runs_from r)) else None.
Proof.
  unfold match_at. unfold boundary at 1. cbn [hd_error is_word_opt].
  destruct (is_word c) eqn:Hc.
  - destruct (is_word_opt prev); cbn [xorb negb andb]; [reflexivity|].
    destruct (word_plus_first c r Hc) as (rest & tl & Hw & Hb).
    rewrite Hw. cbn [find fst snd]. rewrite Hb.
    cbn [option_map fst]. rewrite head_run_cons, Hc. reflexivity.
  - simpl. rewrite Hc. destruct (is_word_opt prev); reflexivity.
Qed.

Lemma findall_from_spec x : forall prev k,
  (k <= List.length (fst (runs_from x)))%nat ->
  findall_from prev x k =
  if is_word_opt prev || negb (Nat.eqb k 0)
  then snd (runs_from x) else word_runs x.
Proof.
  induction x as [|c r IH]; intros prev k Hk.
  - simpl. destruct (is_word_opt prev || negb (Nat.eqb k 0)); reflexivity.
  - rewrite head_run_cons in Hk.
    rewrite later_runs_cons, word_runs_cons.
    destruct k as [|k]; cbn [findall_from].
    + rewrite match_at_spec, orb_false_r.
      destruct (is_word c) eqn:Hc; destruct (is_word_opt prev) eqn:Hp;
        cbn [andb negb]; rewrite IH by (simpl; lia);
        cbn [is_word_opt]; rewrite Hc; cbn [orb negb];
        reflexivity.
    + destruct (is_word c) eqn:Hc; [|simpl in Hk; lia].
      simpl in Hk. rewrite IH by lia. cbn [is_word_opt]. rewrite Hc.
      rewrite orb_true_r. reflexivity.
Qed.

Lemma re_findall_words_runs x : re_findall_words x = word_runs x.
Proof.
  unfold re_findall_words. rewrite findall_from_spec by (simpl; lia).
  reflexivity.
Qed.

(** ** Segments *)

Lemma firstn_plus {A} (a b : nat) (l : list A) :
  firstn (a + b) l = firstn a l ++ firstn b (skipn a l).
Proof.
  revert l. induction a as [|a IH]; intros l; simpl; [reflexivity|].
  destruct l as [|x l]; simpl.
  - now rewrite firstn_nil.
  - now rewrite IH.
Qed.

(** Consecutive pieces of [b] characters make up a prefix. *)
Lemma concat_pieces {A} (b k : nat) (l : list A) :
  List.concat (map (fun i => firstn b (skipn (i * b) l)) (seq 0 k)) =
  firstn (k * b) l.
Proof.
  induction k as [|k IH]; [reflexivity|].
  rewrite seq_S, map_app, concat_app, IH. simpl.
  rewrite app_nil_r, <- firstn_plus. f_equal. lia.
Qed.

Lemma range_succ (m : nat) :
  range (Z.of_nat (S m)) = range (Z.of_nat m) ++ [Z.of_nat m].
Proof.
  unfold range. rewrite !Nat2Z.id, seq_S, map_app. reflexivity.
Qed.

Lemma range_In n i : In i (range n) <-> 0 <= i < n.
Proof.
  unfold range. rewrite in_map_iff. split.
  - intros (k & <- & Hk). apply in_seq in Hk. lia.
  - intros H. exists (Z.to_nat i). split; [lia|]. apply in_seq. lia.
Qed.


Section Segmenter.
Variable text : str.
Variable num_threads : Z.
Hypothesis positive : 0 < num_threads.

Let L := len text.
Let base := L / num_threads.

Lemma base_bounds : 0 <= base /\ num_threads * base <= L.
Proof.
  subst base. assert (0 <= L) by (subst L; unfold len; lia).
  split; [apply Z.div_pos; lia | apply Z.mul_div_le; lia].
Qed.

Lemma inner_bounds i :
  0 <= i < num_threads - 1 ->
  segment_bounds text num_threads i = (i * base, (i + 1) * base).
Proof.
  intros Hi. destruct base_bounds as [Hb Hn].
  unfold segment_bounds, slice_bounds, adjust. fold L. fold base.
  destruct (Z.eqb_spec i (num_threads - 1)); [lia|]. simpl.
  assert ((i + 1) * base <= L) by nia.
  assert (0 <= i * base <= (i + 1) * base) by nia.
  destruct (Z.ltb_spec (i * base) 0); [lia|].
  destruct (Z.ltb_spec ((i + 1) * base) 0); [lia|].
  f_equal; lia.
Qed.

Lemma last_bounds :
  segment_bounds text num_threads (num_threads - 1) =
  ((num_threads - 1) * base, L).
Proof.
  destruct base_bounds as [Hb Hn].
  unfold segment_bounds, slice_from_bounds, adjust. fold L. fold base.
  rewrite Z.eqb_refl. simpl.
  assert (0 <= (num_threads - 1) * base <= L) by nia.
  destruct (Z.ltb_spec ((num_threads - 1) * base) 0); [lia|].
  f_equal; lia.
Qed.

Lemma bounds_ordered i :
  0 <= i < num_threads ->
  0 <= fst (segment_bounds text num_threads i)
    <= snd (segment_bounds text num_threads i) /\
  snd (segment_bounds text num_threads i) <= L.
Proof.
  intros Hi. destruct base_bounds as [Hb Hn].
  destruct (Z.eq_dec i (num_threads - 1)) as [->|Hne].
  - rewrite last_bounds. simpl. nia.
  - rewrite inner_bounds by lia. simpl. nia.
Qed.


Lemma segments_length :
  List.length (segments text num_threads) = Z.to_nat num_threads.
Proof.
  unfold segments, range. now rewrite !length_map, length_seq.
Qed.


Lemma segments_concat : List.concat (segments text num_threads) = text.
Proof.
  destruct base_bounds as [Hb Hn].
  destruct (Z.to_nat num_threads) as [|m] eqn:Hm; [lia|].
  assert (Hnum : num_threads = Z.of_nat (S m)) by lia.
  assert (Hlast : segment text num_threads (Z.of_nat m) =
                  skipn (m * Z.to_nat base) text).
  { replace (Z.of_nat m) with (num_threads - 1) by lia.
    unfold segment. rewrite last_bounds. unfold span. simpl.
    replace (Z.to_nat ((num_threads - 1) * base))
      with (m * Z.to_nat base)%nat by nia.
    apply firstn_all2. rewrite length_skipn. subst L. unfold len. lia. }
  assert (Hinner : List.concat (map (segment text num_threads)
                                    (range (Z.of_nat m))) =
                   firstn (m * Z.to_nat base) text).
  { rewrite <- concat_pieces. f_equal. unfold range.
    rewrite Nat2Z.id, map_map. apply map_ext_in.
    intros i Hi. apply in_seq in Hi.
    unfold segment. rewrite inner_bounds by lia. unfold span. simpl.
    f_equal; [f_equal; nia | f_equal; nia]. }
  unfold segments. rewrite Hnum at 2.
  rewrite range_succ, map_app, concat_app. simpl.
  rewrite app_nil_r, Hlast, Hinner. apply firstn_skipn.
Qed.

End Segmenter.


(** ** Ranking *)

Lemma before_filter {A} (P : A -> bool) l a b :
  P a = true -> P b = true -> before l a b -> before (filter P l) a b.
Proof.
  intros Ha Hb H. induction H as [a b l Hin | x a b l H IH]; simpl.
  - rewrite Ha. constructor. apply filter_In. now split.
  - destruct (P x); [constructor 2|]; now apply IH.
Qed.

Lemma before_filter_inv {A} (P : A -> bool) l a b :
  before (filter P l) a b -> before l a b.
Proof.
  induction l as [|x l IH]; simpl; intros H; [inversion H|].
  destruct (P x).
  - inversion H; subst.
    + constructor. eapply proj1, filter_In. eassumption.
    + constructor 2. now apply IH.
  - constructor 2. now apply IH.
Qed.

Lemma before_firstn {A} n (l : list A) a b :
  before (firstn n l) a b -> before l a b.
Proof.
  revert l. induction n as [|n IH]; intros l H; simpl in H; [inversion H|].
  destruct l as [|x l]; [inversion H|].
  inversion H; subst.
  - constructor. rewrite <- (firstn_skipn n l). apply in_or_app. now left.
  - constructor 2. now apply IH.
Qed.

Lemma insert_desc_Permutation x l : Permutation (x :: l) (insert_desc x l).
Proof.
  induction l as [|y r IH]; simpl; [reflexivity|].
  destruct (snd y <=? snd x); [reflexivity|].
  rewrite perm_swap. now constructor.
Qed.

Lemma sorted_desc_Permutation items : Permutation items (sorted_desc items).
Proof.
  induction items as [|x items IH]; simpl; [constructor|].
  rewrite <- insert_desc_Permutation. now constructor.
Qed.

Lemma insert_desc_sorted x l :
  StronglySorted count_ge l -> StronglySorted count_ge (insert_desc x l).
Proof.
  induction 1 as [|y r Hr IH Hy]; simpl.
  - repeat constructor.
  - destruct (Z.leb_spec (snd y) (snd x)).
    + constructor; [now constructor|].
      constructor; [assumption|].
      eapply Forall_impl; [|exact Hy]. unfold count_ge. intros; lia.
    + constructor; [assumption|].
      eapply Permutation_Forall; [apply insert_desc_Permutation|].
      constructor; [unfold count_ge; lia | assumption].
Qed.

Lemma sorted_desc_sorted items : StronglySorted count_ge (sorted_desc items).
Proof.
  induction items as [|x items IH]; simpl; [constructor|].
  now apply insert_desc_sorted.
Qed.

(** The entries of one count keep the order they had. *)
Lemma insert_desc_stable c x l :
  filter (fun e => snd e =? c) (insert_desc x l) =
  filter (fun e => snd e =? c) (x :: l).
Proof.
  induction l as [|y r IH]; [reflexivity|].
  cbn [insert_desc]. destruct (Z.leb_spec (snd y) (snd x)); [reflexivity|].
  cbn [filter] in *. rewrite IH.
  destruct (Z.eqb_spec (snd y) c); destruct (Z.eqb_spec (snd x) c);
    try reflexivity; lia.
Qed.

Lemma sorted_desc_stable c items :
  filter (fun e => snd e =? c) (sorted_desc items) =
  filter (fun e => snd e =? c) items.
Proof.
  induction items as [|x items IH]; [reflexivity|].
  cbn [sorted_desc fold_right]. fold (sorted_desc items).
  rewrite insert_desc_stable. cbn [filter]. now rewrite IH.
Qed.

Lemma StronglySorted_firstn {A} (R : A -> A -> Prop) n l :
  StronglySorted R l -> StronglySorted R (firstn n l).
Proof.
  intros H. revert n. induction H as [|x l Hl IH Hx]; intros n.
  - rewrite firstn_nil. constructor.
  - destruct n; simpl; constructor; [apply IH|].
    rewrite Forall_forall in *. intros y Hy. apply Hx.
    rewrite <- (firstn_skipn n l). apply in_or_app. now left.
Qed.

Lemma sorted_desc_before items a b :
  snd a = snd b -> before (sorted_desc items) a b -> before items a b.
Proof.
  intros E H.
  apply (before_filter_inv (fun e => snd e =? snd a)).
  rewrite <- sorted_desc_stable.
  apply before_filter; [apply Z.eqb_refl | rewrite E; apply Z.eqb_refl | exact H].
Qed.

Lemma most_common_prefix tbl n :
  0 <= n -> most_common tbl n = firstn (Z.to_nat n) (sorted_desc tbl).
Proof.
  intros H. unfold most_common, nlargest.
  destruct (Z.leb_spec n 0); [|reflexivity].
  replace n with 0 by lia. reflexivity.
Qed.

(** ** Worker counts (C1) *)

Lemma tokens_single stop seg w :
  re_findall_words (lower seg) = [w] ->
  in_set stop w = false ->
  tokens stop seg = [w].
Proof.
  intros Hf Hs. unfold tokens. rewrite Hf. simpl. now rewrite Hs.
Qed.

(** C1: the table does depend on the number of workers.  The text "catdog"
    is one word for one worker; two workers cut it at offset 3 and count
    "cat" and "dog", whatever the stop words, as long as none of the three
    words is one. *)
Theorem map_reduce_cuts_words (stop : list str) :
  in_set stop (lit "catdog") = false ->
  in_set stop (lit "cat") = false ->
  in_set stop (lit "dog") = false ->
  map_reduce stop (lit "catdog") 1 = Return [(lit "catdog", 1)] /\
  map_reduce stop (lit "catdog") 2 = Return [(lit "cat", 1); (lit "dog", 1)] /\
  ~ dict_equiv [(lit "catdog", 1)] [(lit "cat", 1); (lit "dog", 1)].
Proof.
  intros H0 H1 H2. split; [|split].
  - unfold map_reduce, map_reduce_with. cbn [Z.eqb].
    change (segments (lit "catdog") 1) with [lit "catdog"].
    unfold run_threads, thread_run, worker_target, map_worker. cbn [fold_left].
    rewrite (tokens_single stop (lit "catdog") (lit "catdog") eq_refl H0).
    reflexivity.
  - unfold map_reduce, map_reduce_with. cbn [Z.eqb].
    change (segments (lit "catdog") 2) with [lit "cat"; lit "dog"].
    unfold run_threads, thread_run, worker_target, map_worker. cbn [fold_left].
    rewrite (tokens_single stop (lit "cat") (lit "cat") eq_refl H1).
    rewrite (tokens_single stop (lit "dog") (lit "dog") eq_refl H2).
    reflexivity.
  - intros E. specialize (E (lit "cat")). discriminate E.
Qed.

Lemma map_reduce_cuts_words_witness :
  map_reduce stop_the_on (lit "catdog") 1 = Return [(lit "catdog", 1)] /\
  map_reduce stop_the_on (lit "catdog") 2
    = Return [(lit "cat", 1); (lit "dog", 1)] /\
  ~ dict_equiv [(lit "catdog", 1)] [(lit "cat", 1); (lit "dog", 1)].
Proof.
  apply (map_reduce_cuts_words stop_the_on); reflexivity.
Defined.

(** ** Worker counts that are not positive (C2) *)

(** C2, as the claim states it, fails: with a negative worker count
    [map_reduce] raises nothing and returns a table. *)
Lemma nonpositive_workers_not_rejected :
  ~ (forall stop text n, n <= 0 -> exists e, map_reduce stop text n = Raise e).
Proof.
  intros H. destruct (H stop_the_on cat_text (-1) ltac:(lia)) as [e He].
  vm_compute in He. discriminate He.
Qed.

Lemma segments_negative text n : n <= 0 -> segments text n = [].
Proof.
  intros H. unfold segments, range.
  replace (Z.to_nat n) with 0%nat by lia. reflexivity.
Qed.

(** C2, amended: worker count 0 fails at the division that computes the
    segment length, before the dictionary and the threads exist; a negative
    worker count cuts no segment, starts no worker and returns the empty
    table. *)
Theorem map_reduce_nonpositive (stop : list str) (text : str) (n : Z) :
  n <= 0 ->
  map_reduce stop text n =
  if n =? 0 then Raise ZeroDivisionError else Return [].
Proof.
  intros H. unfold map_reduce, map_reduce_with.
  destruct (n =? 0); [reflexivity|].
  rewrite segments_negative by exact H. reflexivity.
Qed.

Lemma map_reduce_nonpositive_witness :
  map_reduce stop_the_on cat_text 0 = Raise ZeroDivisionError /\
  map_reduce stop_the_on cat_text (-2) = Return [].
Proof.
  split.
  - apply (map_reduce_nonpositive stop_the_on cat_text 0). lia.
  - apply (map_reduce_nonpositive stop_the_on cat_text (-2)). lia.
Defined.

(** ** Failing workers (C3) *)





(** ** The segmenter (C4) *)



(** ** The ranker (C5) *)

(** C5, as the claim states it, fails: no order on words (no relation that
    never puts two words both ways) decides the ties.  The tables
    {sat: 1, mat: 1} and {mat: 1, sat: 1} are equal as dictionaries and are
    ranked in opposite orders. *)
Lemma ranker_has_no_secondary_key :
  ~ exists key_before : str -> str -> Prop,
      (forall a b, key_before a b -> ~ key_before b a) /\
      ties_by_key key_before.
Proof.
  intros (key_before & Hasym & Hties).
  assert (H1 : key_before (lit "sat") (lit "mat")).
  { apply (Hties [(lit "sat", 1); (lit "mat", 1)] 2
                 (lit "sat", 1) (lit "mat", 1)); try reflexivity; try lia.
    - repeat constructor; simpl; intuition discriminate.
    - vm_compute. constructor. now left. }
  assert (H2 : key_before (lit "mat") (lit "sat")).
  { apply (Hties [(lit "mat", 1); (lit "sat", 1)] 2
                 (lit "mat", 1) (lit "sat", 1)); try reflexivity; try lia.
    - repeat constructor; simpl; intuition discriminate.
    - vm_compute. constructor. now left. }
  exact (Hasym _ _ H1 H2).
Qed.

(** The ranking of the spec's example table: the tie between "sat", "mat"
    and "ran" goes to "sat", the first of them in the table. *)
Example most_common_cat :
  most_common [(lit "cat", 2); (lit "sat", 1); (lit "mat", 1); (lit "ran", 1)] 2
  = [(lit "cat", 2); (lit "sat", 1)].
Proof. reflexivity. Qed.

Lemma before_app {A} (l1 l2 : list A) a b :
  In a l1 -> In b l2 -> before (l1 ++ l2) a b.
Proof.
  induction l1 as [|x l1 IH]; intros Ha Hb; [destruct Ha|].
  destruct Ha as [->|Ha]; simpl.
  - constructor. apply in_or_app. now right.
  - constructor 2. now apply IH.
Qed.

(** C5, amended: for every table and every [n >= 0] the ranking has at
    most [n] entries (as many as [n] and the table allow), all of them
    entries of the table, sorted by count descending; [n = 0] gives the
    empty sequence; entries with equal counts stand in the order in which
    the table holds them, and where the cut at [n] falls among entries of
    equal count, the ones kept are those the table holds first: the
    ranking followed by the entries left out is the stable descending sort
    of the table. *)
Theorem most_common_spec (tbl : dict) (n : Z) :
  0 <= n ->
  (List.length (most_common tbl n) <= Z.to_nat n)%nat /\
  List.length (most_common tbl n) = Nat.min (Z.to_nat n) (List.length tbl) /\
  (exists rest,
     Permutation tbl (most_common tbl n ++ rest) /\
     Forall (fun r => Forall (fun e => snd r <= snd e)
                             (most_common tbl n)) rest /\
     StronglySorted count_ge (most_common tbl n ++ rest) /\
     (forall c, filter (fun e => snd e =? c) (most_common tbl n ++ rest) =
                filter (fun e => snd e =? c) tbl) /\
     (forall a b, In a (most_common tbl n) -> In b rest ->
                  snd a = snd b -> before tbl a b)) /\
  StronglySorted count_ge (most_common tbl n) /\
  (n = 0 -> most_common tbl n = []) /\
  (forall a b, before (most_common tbl n) a b -> snd a = snd b ->
               before tbl a b).
Proof.
  intros Hn. rewrite (most_common_prefix tbl n Hn).
  pose proof (sorted_desc_sorted tbl) as Hs.
  pose proof (sorted_desc_Permutation tbl) as Hp.
  repeat match goal with |- _ /\ _ => split end.
  - apply firstn_le_length.
  - rewrite length_firstn, (Permutation_length Hp). reflexivity.
  - exists (skipn (Z.to_nat n) (sorted_desc tbl)).
    rewrite firstn_skipn.
    split; [exact Hp|]. split; [|split; [exact Hs|split]].
    + rewrite <- (firstn_skipn (Z.to_nat n) (sorted_desc tbl)) in Hs.
      revert Hs. generalize (firstn (Z.to_nat n) (sorted_desc tbl)) as l1.
      generalize (skipn (Z.to_nat n) (sorted_desc tbl)) as l2.
      intros l2 l1. induction l1 as [|x l1 IH]; simpl; intros Hs.
      * apply Forall_forall. intros; constructor.
      * apply StronglySorted_inv in Hs as [Hs Hx].
        specialize (IH Hs). rewrite Forall_forall in *.
        intros r Hr. constructor; [|now apply IH].
        apply Hx, in_or_app. now right.
    + intros c. apply sorted_desc_stable.
    + intros a b Ha Hb E. apply sorted_desc_before; [exact E|].
      rewrite <- (firstn_skipn (Z.to_nat n) (sorted_desc tbl)).
      now apply before_app.
  - now apply StronglySorted_firstn.
  - intros ->. reflexivity.
  - intros a b Hb E. apply sorted_desc_before; [exact E|].
    eapply before_firstn. exact Hb.
Qed.

Lemma most_common_spec_witness :
  StronglySorted count_ge
    (most_common [(lit "sat", 1); (lit "cat", 2); (lit "mat", 1)] 2).
Proof.
  destruct (most_common_spec [(lit "sat", 1); (lit "cat", 2); (lit "mat", 1)] 2
              ltac:(lia)) as (_ & _ & _ & Hs & _).
  exact Hs.
Defined.

(** ** Merge order (C6) *)

Lemma In_dict_get d k v :
  dict_wf d -> (In (k, v) d <-> dict_get d k = Some v).
Proof.
  unfold dict_wf. induction d as [|[k' v'] r IH]; intros Hwf; simpl.
  - split; [tauto | discriminate].
  - inversion Hwf as [|? ? Hnot Hnd]; subst. specialize (IH Hnd).
    case_str k k'.
    + split.
      * intros [[= ->]|Hin]; [reflexivity|].
        exfalso. apply Hnot. apply in_map_iff. now exists (k', v).
      * intros [= ->]. now left.
    + split.
      * intros [[= E1 E2]|Hin]; [congruence | now apply IH].
      * intros H. right. now apply IH.
Qed.

Lemma dict_wf_NoDup d : dict_wf d -> NoDup d.
Proof. intros H. eapply NoDup_map_inv. exact H. Qed.

Lemma dict_equiv_Permutation d1 d2 :
  dict_wf d1 -> dict_wf d2 -> dict_equiv d1 d2 -> Permutation d1 d2.
Proof.
  intros H1 H2 He.
  apply NoDup_Permutation; try now apply dict_wf_NoDup.
  intros [k v]. rewrite !In_dict_get by assumption. now rewrite (He k).
Qed.

Lemma sorted_counts l :
  StronglySorted count_ge l ->
  StronglySorted (fun a b : Z => b <= a) (map snd l).
Proof.
  induction 1 as [|x l Hl IH Hx]; simpl; constructor; [exact IH|].
  apply Forall_map. exact Hx.
Qed.

Lemma sorted_Z_unique (l1 l2 : list Z) :
  StronglySorted (fun a b : Z => b <= a) l1 ->
  StronglySorted (fun a b : Z => b <= a) l2 ->
  Permutation l1 l2 -> l1 = l2.
Proof.
  intros H1. revert l2. induction H1 as [|x r1 Hr1 IH Hx]; intros l2 H2 Hp.
  - apply Permutation_nil in Hp. now subst.
  - destruct l2 as [|y r2];
      [apply Permutation_sym, Permutation_nil in Hp; discriminate|].
    apply StronglySorted_inv in H2 as [Hr2 Hy].
    assert (Hyx : In y (x :: r1))
      by (eapply Permutation_in; [apply Permutation_sym, Hp | now left]).
    assert (Hxy : In x (y :: r2))
      by (eapply Permutation_in; [exact Hp | now left]).
    assert (E : x = y).
    { rewrite Forall_forall in Hx, Hy.
      destruct Hyx as [->|Hyx]; [reflexivity|].
      destruct Hxy as [->|Hxy]; [reflexivity|].
      specialize (Hx _ Hyx). specialize (Hy _ Hxy). lia. }
    subst y. f_equal. apply IH; [exact Hr2|].
    eapply Permutation_cons_inv. exact Hp.
Qed.

(** The counts of a ranking do not depend on the order of the table. *)
Lemma most_common_counts tbl1 tbl2 n :
  Permutation tbl1 tbl2 ->
  map snd (most_common tbl1 n) = map snd (most_common tbl2 n).
Proof.
  intros Hp. unfold most_common, nlargest.
  destruct (n <=? 0); [reflexivity|].
  rewrite <- !firstn_map. f_equal.
  apply sorted_Z_unique; try (apply sorted_counts, sorted_desc_sorted).
  apply Permutation_map.
  eapply Permutation_trans;
    [apply Permutation_sym, sorted_desc_Permutation|].
  eapply Permutation_trans; [exact Hp | apply sorted_desc_Permutation].
Qed.

(** C6, as the claim states it, fails: two runs on the same text with the
    same three workers, one merging in the order of the segments and one
    in the reverse order, leave the keys in different orders, and the
    pipeline shows "cat" and "sat" after the first and "cat" and "ran"
    after the second. *)
Lemma rerun_changes_ranking :
  ~ (forall stop text n top order,
       Permutation order (segments text n) ->
       chart_data (run_threads (worker_target stop) order []) top =
       chart_data (run_threads (worker_target stop) (segments text n) []) top).
Proof.
  intros H.
  specialize (H stop_the_on cat_text 3 2
                [lit "The cat ran."; lit "on the mat. "; lit "The cat sat "]).
  assert (Hp : Permutation
                 [lit "The cat ran."; lit "on the mat. "; lit "The cat sat "]
                 (segments cat_text 3)).
  { change (segments cat_text 3)
      with [lit "The cat sat "; lit "on the mat. "; lit "The cat ran."].
    apply Permutation_rev. }
  specialize (H Hp). vm_compute in H. discriminate H.
Qed.

(** C6, amended: whatever the order in which the workers merge their
    counts, the dictionary they leave has the same entries as the one
    [map_reduce] returns (equal as dictionaries: the same keys with the
    same counts); only the order of the keys depends on the run, and the
    ranking of any two runs shows the same counts, in the same order. *)
Theorem map_reduce_merge_order (stop : list str) (text : str) (n : Z)
    (tbl : dict) (order : list str) :
  map_reduce stop text n = Return tbl ->
  Permutation order (segments text n) ->
  dict_equiv (run_threads (worker_target stop) order []) tbl /\
  dict_wf (run_threads (worker_target stop) order []) /\
  Permutation (run_threads (worker_target stop) order []) tbl /\
  (forall top,
     map snd (most_common (run_threads (worker_target stop) order []) top) =
     map snd (most_common tbl top)).
Proof.
  intros Hr Hp. unfold map_reduce, map_reduce_with in *.
  destruct (n =? 0); [discriminate|].
  injection Hr as <-.
  assert (He : dict_equiv (run_threads (worker_target stop) order [])
                 (run_threads (worker_target stop) (segments text n) []))
    by now apply run_threads_Permutation.
  assert (Hperm : Permutation (run_threads (worker_target stop) order [])
                    (run_threads (worker_target stop) (segments text n) [])).
  { apply dict_equiv_Permutation; [| | exact He];
      apply run_threads_wf; constructor. }
  repeat split.
  - exact He.
  - apply run_threads_wf. constructor.
  - exact Hperm.
  - intros top. now apply most_common_counts.
Qed.

Lemma map_reduce_merge_order_witness :
  dict_equiv
    (run_threads (worker_target stop_the_on)
       [lit "The cat ran."; lit "on the mat. "; lit "The cat sat "] [])
    [(lit "cat", 2); (lit "sat", 1); (lit "mat", 1); (lit "ran", 1)].
Proof.
  apply (map_reduce_merge_order stop_the_on cat_text 3).
  - reflexivity.
  - change (segments cat_text 3)
      with [lit "The cat sat "; lit "on the mat. "; lit "The cat ran."].
    apply Permutation_rev.
Defined.

(** The order of the merges shows in the order of the keys. *)
Remark merge_order_visible :
  run_threads (worker_target stop_the_on)
    [lit "The cat ran."; lit "on the mat. "; lit "The cat sat "] []
  = [(lit "cat", 2); (lit "ran", 1); (lit "mat", 1); (lit "sat", 1)].
Proof. reflexivity. Qed.

(** ** Stop words (C7) *)

Lemma tokens_not_stop stop seg w : In w stop -> ~ In w (tokens stop seg).
Proof.
  intros Hin Ht. unfold tokens in Ht. apply filter_In in Ht as [_ Hn].
  assert (in_set stop w = true).
  { unfold in_set. apply existsb_exists. exists w. split; [exact Hin|].
    apply str_eqb_refl. }
  rewrite H in Hn. discriminate.
Qed.

(** C7: no stop word is a key of the table [map_reduce] returns, for every
    text, every stop-word set (lowercase or not) and every worker count. *)
Theorem map_reduce_no_stop_word (stop : list str) (text : str) (n : Z)
    (tbl : dict) (w : str) :
  map_reduce stop text n = Return tbl ->
  In w stop ->
  ~ In w (keys tbl) /\ dict_get tbl w = None.
Proof.
  intros Hr Hin. unfold map_reduce, map_reduce_with in Hr.
  destruct (n =? 0); [discriminate|]. injection Hr as <-.
  assert (Hg : dict_get (run_threads (worker_target stop) (segments text n) []) w
               = None).
  { rewrite run_threads_get.
    replace (occ (flat_map (tokens stop) (segments text n)) w) with 0;
      [reflexivity|].
    symmetry. apply occ_zero_iff. intros Hf.
    apply in_flat_map in Hf as (seg & _ & Hseg).
    exact (tokens_not_stop stop seg w Hin Hseg). }
  split; [now apply dict_get_None_keys | exact Hg].
Qed.

Lemma map_reduce_no_stop_word_witness :
  dict_get [(lit "cat", 2); (lit "sat", 1); (lit "mat", 1); (lit "ran", 1)]
           (lit "the") = None.
Proof.
  apply (map_reduce_no_stop_word stop_the_on cat_text 3).
  - reflexivity.
  - left. reflexivity.
Defined.

(** ** The example of the spec (C8) *)

(** C8: "The cat sat on the mat. The cat ran." with stop words
    {"the", "on"} gives {cat: 2, sat: 1, mat: 1, ran: 1}, with one worker
    and with three. *)
Theorem map_reduce_cat_example :
  map_reduce stop_the_on cat_text 1 =
    Return [(lit "cat", 2); (lit "sat", 1); (lit "mat", 1); (lit "ran", 1)] /\
  map_reduce stop_the_on cat_text 3 =
    Return [(lit "cat", 2); (lit "sat", 1); (lit "mat", 1); (lit "ran", 1)].
Proof. split; vm_compute; reflexivity. Qed.

(** ** One worker (C9) *)

Lemma segments_one text : segments text 1 = [text].
Proof.
  unfold segments, range. simpl.
  unfold segment, segment_bounds, slice_from_bounds, adjust, span. simpl.
  unfold len. pose proof (Zle_0_nat (List.length text)).
  rewrite Z.min_l by lia. rewrite Z.sub_0_r, Nat2Z.id. simpl.
  now rewrite firstn_all.
Qed.

Lemma occ_filter (P : str -> bool) words w :
  occ (filter P words) w = if P w then occ words w else 0.
Proof.
  induction words as [|a ws IH]; simpl.
  - destruct (P w); reflexivity.
  - destruct (P a) eqn:Pa; rewrite ?occ_cons, IH.
    + case_str w a; [rewrite Pa|]; destruct (P a); try reflexivity;
        destruct (P w); reflexivity.
    + case_str w a; [rewrite Pa; reflexivity|].
      destruct (P w); [lia | reflexivity].
Qed.

(** C9: with one worker [map_reduce] returns the sequential reference
    count of the whole text, and no entry of it is zero. *)
Theorem map_reduce_one_worker (stop : list str) (text : str) :
  exists tbl,
    map_reduce stop text 1 = Return tbl /\
    dict_wf tbl /\
    (forall w, dict_get tbl w = reference_count stop text w) /\
    (forall w c, dict_get tbl w = Some c -> 0 < c).
Proof.
  exists (run_threads (worker_target stop) [text] []).
  assert (Hget : forall w, dict_get (run_threads (worker_target stop) [text] []) w
                           = reference_count stop text w).
  { intros w. rewrite run_threads_get. simpl flat_map. rewrite app_nil_r.
    unfold reference_count, tokens. rewrite re_findall_words_runs, occ_filter.
    destruct (in_set stop w); simpl; [reflexivity|].
    destruct (occ (word_runs (lower text)) w =? 0); reflexivity. }
  repeat split.
  - unfold map_reduce, map_reduce_with. rewrite segments_one. reflexivity.
  - apply run_threads_wf. constructor.
  - exact Hget.
  - intros w c. rewrite Hget. unfold reference_count.
    pose proof (occ_nonneg (word_runs (lower text)) w).
    destruct (in_set stop w); simpl; [discriminate|].
    destruct (Z.eqb_spec (occ (word_runs (lower text)) w) 0); [discriminate|].
    intros [= <-]. lia.
Qed.

(** ** The frame of a worker (C10) *)

(** C10: [map_worker] only adds.  A word that is not among the segment's
    filtered tokens keeps its entry, or its absence; an entry is never
    removed nor lowered; every count is at least what it was. *)
Theorem map_worker_only_adds (seg : str) (acc : dict) (stop : list str)
    (w : str) :
  (~ In w (tokens stop seg) ->
     dict_get (map_worker seg acc stop) w = dict_get acc w) /\
  (forall c, dict_get acc w = Some c ->
     exists c', dict_get (map_worker seg acc stop) w = Some c' /\ c <= c') /\
  count_of acc w <= count_of (map_worker seg acc stop) w /\
  count_of (map_worker seg acc stop) w =
    count_of acc w + occ (tokens stop seg) w.
Proof.
  pose proof (occ_nonneg (tokens stop seg) w) as Hn.
  assert (Hc : count_of (map_worker seg acc stop) w =
               count_of acc w + occ (tokens stop seg) w).
  { unfold count_of at 1. rewrite map_worker_get.
    destruct (Z.eqb_spec (occ (tokens stop seg) w) 0) as [E|E];
      [rewrite E; unfold count_of; lia | reflexivity]. }
  repeat split.
  - intros Hnot. rewrite map_worker_get.
    apply occ_zero_iff in Hnot. rewrite Hnot. reflexivity.
  - intros c Hget. rewrite map_worker_get.
    destruct (occ (tokens stop seg) w =? 0).
    + exists c. split; [exact Hget | lia].
    + exists (count_of acc w + occ (tokens stop seg) w). split; [reflexivity|].
      unfold count_of. rewrite Hget. lia.
  - lia.
  - exact Hc.
Qed.

(** * Further properties of the code *)

(** ** Characters *)

Lemma is_word_lower_char c : is_word (lower_char c) = is_word c.
Proof. destruct c as [[] [] [] [] [] [] [] []]; reflexivity. Qed.

Lemma lower_char_idem c : lower_char (lower_char c) = lower_char c.
Proof. destruct c as [[] [] [] [] [] [] [] []]; reflexivity. Qed.

Lemma lower_idem x : lower (lower x) = lower x.
Proof.
  unfold lower. rewrite map_map. apply map_ext, lower_char_idem.
Qed.

Lemma lower_app a b : lower (a ++ b) = lower a ++ lower b.
Proof. apply map_app. Qed.

(** ** The shape of the tokens *)

Lemma runs_from_shape x :
  forallb is_word (fst (runs_from x)) = true /\
  incl (fst (runs_from x)) x /\
  Forall (fun k => k <> [] /\ forallb is_word k = true /\ incl k x)
         (snd (runs_from x)).
Proof.
  induction x as [|c r (Hf & Hi & Hs)]; simpl.
  - repeat split; [intros ? [] | constructor].
  - assert (Hs' : Forall (fun k => k <> [] /\ forallb is_word k = true /\
                                   incl k (c :: r)) (snd (runs_from r))).
    { eapply Forall_impl; [|exact Hs]. intros k (H1 & H2 & H3).
      repeat split; try assumption. now apply incl_tl. }
    destruct (is_word c) eqn:Hc; simpl.
    + rewrite Hc, Hf. repeat split; [|exact Hs'].
      intros y [<-|Hy]; [now left | right; now apply Hi].
    + repeat split; [intros ? [] |].
      unfold push_run. destruct (fst (runs_from r)) as [|h t] eqn:E;
        [exact Hs'|].
      constructor; [|exact Hs'].
      repeat split; [discriminate | exact Hf | now apply incl_tl].
Qed.

Lemma word_runs_shape x k :
  In k (word_runs x) -> k <> [] /\ forallb is_word k = true /\ incl k x.
Proof.
  destruct (runs_from_shape x) as (Hf & Hi & Hs).
  unfold word_runs, push_run. rewrite Forall_forall in Hs.
  destruct (fst (runs_from x)) as [|h t] eqn:E; [apply Hs|].
  intros [<-|Hin]; [|now apply Hs].
  repeat split; [discriminate | exact Hf | exact Hi].
Qed.

Lemma tokens_shape stop seg k :
  In k (tokens stop seg) ->
  k <> [] /\ forallb is_word k = true /\ lower k = k /\ in_set stop k = false.
Proof.
  unfold tokens. rewrite re_findall_words_runs. intros Hin.
  apply filter_In in Hin as [Hin Hstop].
  apply word_runs_shape in Hin as (Hne & Hw & Hincl).
  repeat split; try assumption.
  - unfold lower. rewrite <- (map_id k) at 2. apply map_ext_in.
    intros c Hc. apply Hincl in Hc. unfold lower in Hc.
    apply in_map_iff in Hc as (c' & <- & _). apply lower_char_idem.
  - now destruct (in_set stop k).
Qed.

Lemma map_reduce_Return stop text n tbl :
  map_reduce stop text n = Return tbl ->
  n <> 0 /\ tbl = run_threads (worker_target stop) (segments text n) [].
Proof.
  unfold map_reduce, map_reduce_with.
  destruct (Z.eqb_spec n 0); [discriminate|].
  intros [= <-]. now split.
Qed.

Lemma map_reduce_nonzero stop text n :
  n <> 0 ->
  map_reduce stop text n =
  Return (run_threads (worker_target stop) (segments text n) []).
Proof.
  intros H. unfold map_reduce, map_reduce_with.
  destruct (Z.eqb_spec n 0); [contradiction | reflexivity].
Qed.

Lemma run_threads_keys stop segs k :
  In k (keys (run_threads (worker_target stop) segs [])) <->
  In k (flat_map (tokens stop) segs).
Proof.
  pose proof (run_threads_get stop segs [] k) as Hg.
  pose proof (dict_get_None_keys
                (run_threads (worker_target stop) segs []) k) as Hk.
  pose proof (occ_zero_iff (flat_map (tokens stop) segs) k) as Hz.
  destruct (Z.eqb_spec (occ (flat_map (tokens stop) segs) k) 0) as [E|E].
  - simpl in Hg. split; intros H.
    + exfalso. now apply Hk.
    + exfalso. now apply Hz.
  - split; intros H.
    + destruct (in_dec str_eq_dec k (flat_map (tokens stop) segs)) as [|N];
        [assumption|]. exfalso. now apply E, Hz.
    + destruct (in_dec str_eq_dec k
                  (keys (run_threads (worker_target stop) segs []))) as [|N];
        [assumption|]. apply Hk in N. rewrite N in Hg. discriminate.
Qed.

(** ** What the table holds *)

(** The count of a word is the number of times it is a filtered token of a
    segment; a word is a key exactly when that number is not zero, and no
    stored count is zero or negative, whatever the worker count. *)
Theorem map_reduce_counts (stop : list str) (text : str) (n : Z)
    (tbl : dict) (w : str) :
  map_reduce stop text n = Return tbl ->
  count_of tbl w = occ (flat_map (tokens stop) (segments text n)) w /\
  (In w (keys tbl) <-> 0 < occ (flat_map (tokens stop) (segments text n)) w) /\
  (forall v, dict_get tbl w = Some v -> 0 < v).
Proof.
  intros Hr. apply map_reduce_Return in Hr as [_ ->].
  pose proof (run_threads_get stop (segments text n) [] w) as Hg.
  pose proof (occ_nonneg (flat_map (tokens stop) (segments text n)) w) as Hn.
  pose proof (occ_zero_iff (flat_map (tokens stop) (segments text n)) w) as Hz.
  repeat split.
  - unfold count_of. rewrite Hg.
    destruct (Z.eqb_spec (occ (flat_map (tokens stop) (segments text n)) w) 0);
      simpl; lia.
  - intros H. apply run_threads_keys in H.
    destruct (Z.eq_dec (occ (flat_map (tokens stop) (segments text n)) w) 0)
      as [E|E]; [now apply Hz in E | lia].
  - intros H. apply run_threads_keys.
    destruct (in_dec str_eq_dec w (flat_map (tokens stop) (segments text n)))
      as [|N]; [assumption|]. apply Hz in N. lia.
  - intros v Hv. rewrite Hg in Hv.
    destruct (Z.eqb_spec (occ (flat_map (tokens stop) (segments text n)) w) 0);
      simpl in Hv; [discriminate|]. injection Hv as <-. unfold count_of. simpl. lia.
Qed.

Lemma map_reduce_counts_witness :
  count_of [(lit "cat", 2); (lit "sat", 1); (lit "mat", 1); (lit "ran", 1)]
           (lit "cat") =
  occ (flat_map (tokens stop_the_on) (segments cat_text 3)) (lit "cat").
Proof.
  apply (map_reduce_counts stop_the_on cat_text 3). reflexivity.
Defined.

(** Every key of the table is a non-empty string of word characters, is
    lowercase (unchanged by [lower]) and is not a stop word. *)
Theorem map_reduce_keys_shape (stop : list str) (text : str) (n : Z)
    (tbl : dict) (w : str) :
  map_reduce stop text n = Return tbl ->
  In w (keys tbl) ->
  w <> [] /\ Forall (fun c => is_word c = true) w /\ lower w = w /\
  in_set stop w = false.
Proof.
  intros Hr Hin. apply map_reduce_Return in Hr as [_ ->].
  apply run_threads_keys in Hin.
  apply in_flat_map in Hin as (seg & _ & Hseg).
  apply tokens_shape in Hseg as (H1 & H2 & H3 & H4).
  repeat split; try assumption.
  apply Forall_forall. intros c Hc.
  rewrite forallb_forall in H2. now apply H2.
Qed.

Lemma map_reduce_keys_shape_witness :
  lit "cat" <> [] /\ Forall (fun c => is_word c = true) (lit "cat") /\
  lower (lit "cat") = lit "cat" /\ in_set stop_the_on (lit "cat") = false.
Proof.
  apply (map_reduce_keys_shape stop_the_on (lit "The Cat.") 1
           [(lit "cat", 1)]).
  - reflexivity.
  - left. reflexivity.
Defined.

(** ** Nothing is lost in the merge *)

Lemma total_count_add d k v : total_count (dict_add d k v) = total_count d + v.
Proof.
  unfold total_count. induction d as [|[k' v'] r IH]; simpl; [lia|].
  case_str k k'; simpl; lia.
Qed.

Lemma total_count_Counter_from words d :
  total_count (fold_left (fun d w => dict_add d w 1) words d) =
  total_count d + Z.of_nat (List.length words).
Proof.
  revert d. induction words as [|a ws IH]; intros d; simpl List.length.
  - simpl. lia.
  - cbn [fold_left]. rewrite IH, total_count_add. lia.
Qed.

Lemma total_count_merge local acc :
  total_count (merge local acc) = total_count acc + total_count local.
Proof.
  unfold merge. revert acc.
  induction local as [|[a c] ls IH]; intros acc.
  - unfold total_count. simpl. lia.
  - cbn [fold_left fst snd]. rewrite IH, total_count_add.
    unfold total_count. simpl. lia.
Qed.

Lemma total_count_map_worker seg acc stop :
  total_count (map_worker seg acc stop) =
  total_count acc + Z.of_nat (List.length (tokens stop seg)).
Proof.
  unfold map_worker, Counter.
  rewrite total_count_merge, total_count_Counter_from.
  unfold total_count at 2. simpl. lia.
Qed.

Lemma total_count_run_threads stop segs acc :
  total_count (run_threads (worker_target stop) segs acc) =
  total_count acc + Z.of_nat (List.length (flat_map (tokens stop) segs)).
Proof.
  unfold run_threads. revert acc.
  induction segs as [|sg segs IH]; intros acc; cbn [fold_left flat_map].
  - simpl. lia.
  - rewrite IH.
    change (thread_run (worker_target stop) acc sg) with (map_worker sg acc stop).
    rewrite total_count_map_worker, length_app. lia.
Qed.

(** The counts of the table add up to the number of filtered tokens of all
    segments: no increment is lost or counted twice in the merges. *)
Theorem map_reduce_total_count (stop : list str) (text : str) (n : Z)
    (tbl : dict) :
  map_reduce stop text n = Return tbl ->
  total_count tbl =
  Z.of_nat (List.length (flat_map (tokens stop) (segments text n))).
Proof.
  intros Hr. apply map_reduce_Return in Hr as [_ ->].
  rewrite total_count_run_threads. reflexivity.
Qed.

Lemma map_reduce_total_count_witness :
  total_count [(lit "cat", 2); (lit "sat", 1); (lit "mat", 1); (lit "ran", 1)]
  = Z.of_nat (List.length (flat_map (tokens stop_the_on) (segments cat_text 3))).
Proof.
  apply (map_reduce_total_count stop_the_on cat_text 3). reflexivity.
Defined.

(** ** Segments without tokens *)

Lemma map_worker_no_tokens seg acc stop :
  tokens stop seg = [] -> map_worker seg acc stop = acc.
Proof. intros H. unfold map_worker. rewrite H. reflexivity. Qed.

Lemma run_threads_skip stop l r acc :
  Forall (fun seg => tokens stop seg = []) l ->
  run_threads (worker_target stop) (l ++ r) acc =
  run_threads (worker_target stop) r acc.
Proof.
  unfold run_threads. induction 1 as [|sg l Hsg Hl IH]; [reflexivity|].
  cbn [app fold_left].
  change (thread_run (worker_target stop) acc sg) with (map_worker sg acc stop).
  rewrite map_worker_no_tokens by exact Hsg. exact IH.
Qed.

Lemma segment_of_empty n i : segment [] n i = [].
Proof. unfold segment, span. now rewrite skipn_nil, firstn_nil. Qed.

(** An empty text is no error: for every worker count but 0 the table is
    empty (0 fails at the division as for any text). *)
Theorem map_reduce_empty_text (stop : list str) (n : Z) :
  n <> 0 -> map_reduce stop [] n = Return [].
Proof.
  intros H. rewrite map_reduce_nonzero by exact H. f_equal.
  rewrite <- (app_nil_r (segments [] n)).
  rewrite run_threads_skip; [reflexivity|].
  apply Forall_forall. intros seg Hin. unfold segments in Hin.
  apply in_map_iff in Hin as (i & <- & _). now rewrite segment_of_empty.
Qed.

Lemma map_reduce_empty_text_witness :
  map_reduce stop_the_on [] 4 = Return [].
Proof. apply (map_reduce_empty_text stop_the_on 4). lia. Defined.

(** ** More workers than characters *)

Lemma segments_short text n :
  len text < n ->
  exists l, segments text n = l ++ [text] /\ Forall (fun seg => seg = []) l.
Proof.
  intros Hlt.
  assert (HL : 0 <= len text) by (unfold len; lia).
  assert (Hpos : 0 < n) by lia.
  assert (Hbase : len text / n = 0) by (apply Z.div_small; lia).
  destruct (Z.to_nat n) as [|m] eqn:Hm; [lia|].
  assert (Hnum : n = Z.of_nat (S m)) by lia.
  exists (map (segment text n) (range (Z.of_nat m))). split.
  - unfold segments. rewrite Hnum at 2. rewrite range_succ, map_app.
    f_equal. simpl. f_equal.
    replace (Z.of_nat m) with (n - 1) by lia.
    unfold segment. rewrite (last_bounds text n Hpos), Hbase.
    unfold span. simpl. rewrite Z.mul_0_r, Z.sub_0_r. simpl.
    unfold len. rewrite Nat2Z.id. apply firstn_all.
  - apply Forall_forall. intros seg Hin.
    apply in_map_iff in Hin as (i & <- & Hi). apply range_In in Hi.
    unfold segment. rewrite (inner_bounds text n Hpos) by lia.
    rewrite Hbase. unfold span. simpl. rewrite !Z.mul_0_r. reflexivity.
Qed.

(** With more workers than characters the segment length is 0: every
    worker but the last gets an empty segment, the last gets the whole
    text, and the table is the one of a single worker, entry for entry. *)
Theorem map_reduce_more_workers_than_chars (stop : list str) (text : str)
    (n : Z) :
  len text < n ->
  map_reduce stop text n = map_reduce stop text 1.
Proof.
  intros Hlt. assert (0 <= len text) by (unfold len; lia).
  rewrite (map_reduce_nonzero stop text n) by lia.
  rewrite (map_reduce_nonzero stop text 1) by lia.
  destruct (segments_short text n Hlt) as (l & -> & Hl).
  rewrite segments_one. f_equal. apply run_threads_skip.
  eapply Forall_impl; [|exact Hl]. intros seg ->. reflexivity.
Qed.

Lemma map_reduce_more_workers_than_chars_witness :
  map_reduce stop_the_on (lit "catdog") 7
  = map_reduce stop_the_on (lit "catdog") 1.
Proof.
  apply (map_reduce_more_workers_than_chars stop_the_on (lit "catdog") 7).
  vm_compute. reflexivity.
Defined.

(** ** Merging local counters is counting the tokens in order *)

Lemma keys_Counter_from words d :
  keys (fold_left (fun d w => dict_add d w 1) words d) =
  fold_left add_key words (keys d).
Proof.
  revert d. induction words as [|a ws IH]; intros d; [reflexivity|].
  cbn [fold_left]. rewrite IH, keys_dict_add. reflexivity.
Qed.

Lemma keys_merge local acc :
  keys (merge local acc) = fold_left add_key (keys local) (keys acc).
Proof.
  unfold merge. revert acc.
  induction local as [|[a c] ls IH]; intros acc; [reflexivity|].
  cbn [fold_left keys map fst snd]. rewrite IH, keys_dict_add. reflexivity.
Qed.

Lemma add_key_old ks w : In w ks -> add_key ks w = ks.
Proof.
  intros H. unfold add_key.
  destruct (in_dec str_eq_dec w ks); [reflexivity | contradiction].
Qed.

Lemma add_key_new ks w : ~ In w ks -> add_key ks w = ks ++ [w].
Proof.
  intros H. unfold add_key.
  destruct (in_dec str_eq_dec w ks); [contradiction | reflexivity].
Qed.

Lemma add_key_In ks w x : In x ks -> In x (add_key ks w).
Proof.
  intros H. destruct (in_dec str_eq_dec w ks) as [Hin|Hout].
  - now rewrite add_key_old.
  - rewrite add_key_new by assumption. apply in_or_app. now left.
Qed.

Lemma add_key_self ks w : In w (add_key ks w).
Proof.
  destruct (in_dec str_eq_dec w ks) as [Hin|Hout].
  - now rewrite add_key_old.
  - rewrite add_key_new by assumption. apply in_or_app. right. now left.
Qed.

Lemma fold_add_key_keeps l ks x : In x ks -> In x (fold_left add_key l ks).
Proof.
  revert ks. induction l as [|a l IH]; intros ks H; [exact H|].
  cbn [fold_left]. apply IH, add_key_In, H.
Qed.

Lemma fold_add_key_adds l ks x : In x l -> In x (fold_left add_key l ks).
Proof.
  revert ks. induction l as [|a l IH]; intros ks H; [destruct H|].
  cbn [fold_left]. destruct H as [->|H]; [|now apply IH].
  apply fold_add_key_keeps, add_key_self.
Qed.

Lemma fold_add_key_step l ks w :
  fold_left add_key (add_key l w) ks = add_key (fold_left add_key l ks) w.
Proof.
  destruct (in_dec str_eq_dec w l) as [Hin|Hout].
  - rewrite (add_key_old l w Hin).
    symmetry. apply add_key_old. now apply fold_add_key_adds.
  - rewrite (add_key_new l w Hout), fold_left_app. reflexivity.
Qed.

Lemma fold_add_key_twice ws l ks :
  fold_left add_key (fold_left add_key ws l) ks =
  fold_left add_key ws (fold_left add_key l ks).
Proof.
  revert l. induction ws as [|w ws IH]; intros l; [reflexivity|].
  cbn [fold_left]. rewrite IH, fold_add_key_step. reflexivity.
Qed.

(** Two dictionaries with the same keys in the same order and the same
    values are the same list. *)
Lemma dict_ext d1 d2 :
  dict_wf d1 -> keys d1 = keys d2 ->
  (forall k, dict_get d1 k = dict_get d2 k) -> d1 = d2.
Proof.
  unfold dict_wf. revert d2.
  induction d1 as [|[k v] r1 IH]; intros [|[k' v'] r2] Hwf Hk Hg;
    try discriminate; [reflexivity|].
  simpl in Hk. injection Hk as <- Hk.
  inversion Hwf as [|? ? Hnot Hnd]; subst.
  pose proof (Hg k) as Hgk. simpl in Hgk. rewrite str_eqb_refl in Hgk.
  injection Hgk as <-. f_equal. apply IH; [assumption | assumption |].
  intros x. specialize (Hg x). simpl in Hg.
  case_str x k; [|exact Hg].
  pose proof (proj2 (dict_get_None_keys r1 k) Hnot) as H1.
  rewrite Hk in Hnot.
  pose proof (proj2 (dict_get_None_keys r2 k) Hnot) as H2.
  congruence.
Qed.

Lemma map_worker_counts_in_place seg acc stop :
  dict_wf acc ->
  map_worker seg acc stop =
  fold_left (fun d w => dict_add d w 1) (tokens stop seg) acc.
Proof.
  intros Hwf. apply dict_ext.
  - now apply map_worker_wf.
  - unfold map_worker. rewrite keys_merge, keys_Counter_from.
    unfold Counter. rewrite keys_Counter_from. simpl keys.
    rewrite fold_add_key_twice. reflexivity.
  - intros k. rewrite map_worker_get, Counter_from_get. reflexivity.
Qed.

Lemma run_threads_counts_in_place stop segs acc :
  dict_wf acc ->
  run_threads (worker_target stop) segs acc =
  fold_left (fun d w => dict_add d w 1) (flat_map (tokens stop) segs) acc.
Proof.
  unfold run_threads. revert acc.
  induction segs as [|sg segs IH]; intros acc Hwf; [reflexivity|].
  cbn [fold_left flat_map].
  change (thread_run (worker_target stop) acc sg) with (map_worker sg acc stop).
  rewrite IH by now apply map_worker_wf.
  rewrite fold_left_app, map_worker_counts_in_place by exact Hwf.
  reflexivity.
Qed.

(** Whatever the order in which the workers merge, the dictionary they
    leave is, entry for entry and in the same order of keys, the [Counter]
    of the filtered tokens of the segments taken in that order: merging the
    local counters loses nothing of a sequential count of the same tokens.
    As a dictionary (keys and counts, whatever their order) it is the
    [Counter] of the tokens of the segments in the order of the text. *)
Theorem merged_table_is_Counter (stop : list str) (text : str) (n : Z)
    (order : list str) :
  Permutation order (segments text n) ->
  run_threads (worker_target stop) order [] =
    Counter (flat_map (tokens stop) order) /\
  dict_equiv (run_threads (worker_target stop) order [])
             (Counter (flat_map (tokens stop) (segments text n))).
Proof.
  intros Hp.
  assert (H1 : run_threads (worker_target stop) order [] =
               Counter (flat_map (tokens stop) order))
    by (apply run_threads_counts_in_place; constructor).
  split; [exact H1|].
  rewrite H1. intros k. rewrite !Counter_get.
  rewrite (occ_Permutation (flat_map (tokens stop) order)
                           (flat_map (tokens stop) (segments text n)));
    [reflexivity|].
  apply Permutation_flat_map, Hp.
Qed.

Lemma merged_table_is_Counter_witness :
  run_threads (worker_target stop_the_on)
    [lit "The cat ran."; lit "on the mat. "; lit "The cat sat "] [] =
  Counter (flat_map (tokens stop_the_on)
             [lit "The cat ran."; lit "on the mat. "; lit "The cat sat "]).
Proof.
  apply (merged_table_is_Counter stop_the_on cat_text 3).
  change (segments cat_text 3)
    with [lit "The cat sat "; lit "on the mat. "; lit "The cat ran."].
  apply Permutation_rev.
Defined.

(** ** Cuts that respect the words *)

Lemma push_run_app h t1 t2 : push_run h (t1 ++ t2) = push_run h t1 ++ t2.
Proof. destruct h; reflexivity. Qed.

Lemma runs_from_app a b :
  fst (runs_from b) = [] ->
  runs_from (a ++ b) =
  (fst (runs_from a), snd (runs_from a) ++ snd (runs_from b)).
Proof.
  intros Hb. induction a as [|c a IH].
  - simpl. rewrite <- Hb. now destruct (runs_from b).
  - cbn [app runs_from]. rewrite IH. cbn [fst snd].
    destruct (is_word c); [reflexivity|].
    cbn [fst snd]. now rewrite push_run_app.
Qed.

Lemma word_runs_app_head b a :
  fst (runs_from b) = [] -> word_runs (a ++ b) = word_runs a ++ word_runs b.
Proof.
  intros Hb. unfold word_runs. rewrite (runs_from_app a b Hb), Hb.
  cbn [fst snd push_run]. apply push_run_app.
Qed.

Lemma head_run_nonword c b : is_word c = false -> fst (runs_from (c :: b)) = [].
Proof. intros H. rewrite head_run_cons, H. reflexivity. Qed.

Lemma word_runs_app a b :
  clean_cut a b = true -> word_runs (a ++ b) = word_runs a ++ word_runs b.
Proof.
  unfold clean_cut. destruct (rev a) as [|c1 l] eqn:Ea.
  - intros _. apply (f_equal (@rev ascii)) in Ea.
    rewrite rev_involutive in Ea. subst a. reflexivity.
  - destruct b as [|c2 b].
    + intros _. rewrite app_nil_r. unfold word_runs at 3. simpl.
      now rewrite app_nil_r.
    + intros H. apply negb_true_iff, andb_false_iff in H as [H|H].
      * apply (f_equal (@rev ascii)) in Ea. rewrite rev_involutive in Ea.
        simpl in Ea. subst a. rewrite <- app_assoc. cbn [app].
        rewrite (word_runs_app_head (c1 :: c2 :: b))
          by now apply head_run_nonword.
        rewrite (word_runs_app_head [c1]) by now apply head_run_nonword.
        rewrite (word_runs_cons c1 (c2 :: b)), (word_runs_cons c1 []), H.
        rewrite <- app_assoc. reflexivity.
      * apply word_runs_app_head. now apply head_run_nonword.
Qed.

Lemma clean_cut_lower a b : clean_cut (lower a) (lower b) = clean_cut a b.
Proof.
  unfold clean_cut, lower. rewrite <- map_rev.
  destruct (rev a) as [|c1 l]; [reflexivity|].
  destruct b as [|c2 b]; [reflexivity|].
  cbn [map]. now rewrite !is_word_lower_char.
Qed.

Lemma tokens_app stop a b :
  clean_cut a b = true -> tokens stop (a ++ b) = tokens stop a ++ tokens stop b.
Proof.
  intros H. unfold tokens. rewrite !re_findall_words_runs, lower_app.
  rewrite word_runs_app by now rewrite clean_cut_lower.
  apply filter_app.
Qed.

Lemma tokens_clean_cuts stop segs :
  clean_cuts segs = true ->
  flat_map (tokens stop) segs = tokens stop (List.concat segs).
Proof.
  induction segs as [|a rest IH]; [reflexivity|].
  cbn [clean_cuts flat_map List.concat].
  intros H. apply andb_true_iff in H as [Hc Hr].
  rewrite tokens_app by exact Hc. now rewrite IH.
Qed.

(** When no cut separates two word characters, the number of workers does
    not show: whatever the order of the merges, the dictionary the workers
    leave has the keys and the counts of the table of a single worker. *)
Theorem map_reduce_clean_cuts (stop : list str) (text : str) (n : Z)
    (tbl1 : dict) (order : list str) :
  0 < n ->
  clean_cuts (segments text n) = true ->
  Permutation order (segments text n) ->
  map_reduce stop text 1 = Return tbl1 ->
  dict_equiv (run_threads (worker_target stop) order []) tbl1.
Proof.
  intros Hpos Hc Hp H1 k.
  apply map_reduce_Return in H1 as [_ ->].
  rewrite !run_threads_get, segments_one.
  rewrite (occ_Permutation (flat_map (tokens stop) order)
                           (flat_map (tokens stop) (segments text n)))
    by apply Permutation_flat_map, Hp.
  rewrite (tokens_clean_cuts stop _ Hc), (segments_concat text n Hpos).
  cbn [flat_map]. rewrite app_nil_r. reflexivity.
Qed.

Lemma map_reduce_clean_cuts_witness :
  dict_equiv
    (run_threads (worker_target stop_the_on)
       [lit "The cat ran."; lit "on the mat. "; lit "The cat sat "] [])
    [(lit "cat", 2); (lit "sat", 1); (lit "mat", 1); (lit "ran", 1)].
Proof.
  apply (map_reduce_clean_cuts stop_the_on cat_text 3).
  - lia.
  - reflexivity.
  - change (segments cat_text 3)
      with [lit "The cat sat "; lit "on the mat. "; lit "The cat ran."].
    apply Permutation_rev.
  - reflexivity.
Defined.

(** ** The tokenizer keeps the word characters *)

Lemma runs_from_concat x :
  fst (runs_from x) ++ List.concat (snd (runs_from x)) = filter is_word x.
Proof.
  induction x as [|c r IH]; [reflexivity|].
  cbn [runs_from filter]. destruct (is_word c); cbn [fst snd].
  - cbn [app]. now rewrite IH.
  - rewrite <- IH. unfold push_run.
    destruct (fst (runs_from r)); reflexivity.
Qed.

(** The tokens of [\b\w+\b], put end to end, are the word characters of the
    text in their order: the tokenizer drops the other characters and
    nothing else, and no token is empty. *)
Theorem re_findall_words_chars (x : str) :
  List.concat (re_findall_words x) = filter is_word x /\
  Forall (fun k => k <> []) (re_findall_words x).
Proof.
  rewrite re_findall_words_runs. split.
  - rewrite <- runs_from_concat. unfold word_runs, push_run.
    destruct (fst (runs_from x)); reflexivity.
  - apply Forall_forall. intros k Hk. now apply word_runs_shape in Hk.
Qed.

(** ** Upper and lower case *)

Lemma segment_lower text n i :
  lower (segment text n i) = segment (lower text) n i.
Proof.
  unfold segment, segment_bounds, slice_bounds, slice_from_bounds, span, len.
  unfold lower. rewrite length_map, skipn_map, firstn_map. reflexivity.
Qed.

Lemma tokens_lower stop seg : tokens stop (lower seg) = tokens stop seg.
Proof. unfold tokens. now rewrite lower_idem. Qed.

Lemma flat_map_tokens_lower stop text n :
  flat_map (tokens stop) (segments (lower text) n) =
  flat_map (tokens stop) (segments text n).
Proof.
  unfold segments. rewrite !flat_map_concat_map, !map_map. f_equal.
  apply map_ext. intros i. now rewrite <- segment_lower, tokens_lower.
Qed.

(** The case of the text does not count: two texts with the same lowercase
    form get the same table, for every worker count. *)
Theorem map_reduce_case_insensitive (stop : list str) (text1 text2 : str)
    (n : Z) :
  lower text1 = lower text2 ->
  map_reduce stop text1 n = map_reduce stop text2 n.
Proof.
  intros H. unfold map_reduce, map_reduce_with.
  destruct (n =? 0); [reflexivity|]. f_equal.
  rewrite !run_threads_counts_in_place by constructor.
  rewrite <- (flat_map_tokens_lower stop text1), <- (flat_map_tokens_lower stop text2).
  now rewrite H.
Qed.

Lemma map_reduce_case_insensitive_witness :
  map_reduce stop_the_on (lit "The CAT sat") 2
  = map_reduce stop_the_on (lit "the cat SAT") 2.
Proof.
  apply (map_reduce_case_insensitive stop_the_on
           (lit "The CAT sat") (lit "the cat SAT") 2).
  reflexivity.
Defined.

(** ** Stop words that cannot match *)

Lemma tokens_countable seg k :
  In k (word_runs (lower seg)) -> countable k = true.
Proof.
  intros Hin.
  assert (Ht : In k (tokens [] seg)).
  { unfold tokens. rewrite re_findall_words_runs.
    apply filter_In. split; [exact Hin | reflexivity]. }
  apply tokens_shape in Ht as (H1 & H2 & H3 & _).
  unfold countable. rewrite H2, H3, str_eqb_refl.
  destruct (str_eqb k []) eqn:E; [apply str_eqb_eq in E; contradiction|].
  reflexivity.
Qed.

Lemma tokens_drop_stop_word stop w seg :
  countable w = false -> tokens (w :: stop) seg = tokens stop seg.
Proof.
  intros Hw. unfold tokens. rewrite re_findall_words_runs.
  apply filter_ext_in. intros k Hk.
  apply tokens_countable in Hk. cbn [in_set existsb].
  case_str k w; [congruence | reflexivity].
Qed.

(** A stop word that is empty, holds a character that is not a word
    character, or is not lowercase never matches a token: with or without
    it the table is the same. *)
Theorem map_reduce_useless_stop_word (stop : list str) (w : str)
    (text : str) (n : Z) :
  countable w = false ->
  map_reduce (w :: stop) text n = map_reduce stop text n.
Proof.
  intros Hw. unfold map_reduce, map_reduce_with.
  destruct (n =? 0); [reflexivity|]. f_equal.
  rewrite !run_threads_counts_in_place by constructor. f_equal.
  rewrite !flat_map_concat_map. f_equal.
  apply map_ext. intros seg. now apply tokens_drop_stop_word.
Qed.

Lemma map_reduce_useless_stop_word_witness :
  map_reduce [lit "The"; lit "on"] cat_text 3
  = map_reduce [lit "on"] cat_text 3.
Proof.
  apply (map_reduce_useless_stop_word [lit "on"] (lit "The") cat_text 3).
  reflexivity.
Defined.

(** ** The order of the keys *)

Lemma fold_add_key_appends l ks :
  exists new,
    fold_left add_key l ks = ks ++ new /\
    (forall k, In k new <-> In k l /\ ~ In k ks).
Proof.
  revert ks. induction l as [|a l IH]; intros ks.
  - exists []. rewrite app_nil_r. split; [reflexivity|].
    intros k. simpl. tauto.
  - cbn [fold_left]. destruct (IH (add_key ks a)) as (new & -> & Hnew).
    destruct (in_dec str_eq_dec a ks) as [Hin|Hout].
    + rewrite (add_key_old ks a Hin) in *. exists new. split; [reflexivity|].
      intros k. rewrite Hnew. simpl. split.
      * intros [H1 H2]. split; [now right | exact H2].
      * intros [[->|H1] H2]; [contradiction | now split].
    + rewrite (add_key_new ks a Hout) in *. exists (a :: new).
      rewrite <- app_assoc. split; [reflexivity|].
      intros k. simpl. rewrite Hnew. split.
      * intros [->|[H1 H2]]; [split; [now left | exact Hout]|].
        split; [now right|]. intros H. apply H2, in_or_app. now left.
      * intros [[->|H1] H2]; [now left|].
        destruct (str_eq_dec a k) as [->|Hne]; [now left|]. right.
        split; [exact H1|]. intros H. apply in_app_or in H as [H|[H|[]]];
          [contradiction | congruence].
Qed.

Lemma keys_Counter_In words k : In k (keys (Counter words)) <-> In k words.
Proof.
  pose proof (dict_get_None_keys (Counter words) k) as Hk.
  rewrite Counter_get in Hk.
  pose proof (occ_zero_iff words k) as Hz.
  destruct (Z.eqb_spec (occ words k) 0) as [E|E].
  - split; intros H; exfalso; [now apply Hk | now apply Hz].
  - split; intros H.
    + destruct (in_dec str_eq_dec k words) as [|N]; [assumption|].
      exfalso. now apply E, Hz.
    + destruct (in_dec str_eq_dec k (keys (Counter words))) as [|N];
        [assumption|]. apply Hk in N. discriminate.
Qed.

(** A worker does not move the keys that are there: the keys after
    [map_worker] are the keys before, in their order, followed by the
    segment's filtered tokens that were not keys yet. *)
Theorem map_worker_appends_keys (seg : str) (acc : dict) (stop : list str) :
  exists new,
    keys (map_worker seg acc stop) = keys acc ++ new /\
    (forall k, In k new <-> In k (tokens stop seg) /\ ~ In k (keys acc)).
Proof.
  unfold map_worker. rewrite keys_merge.
  destruct (fold_add_key_appends (keys (Counter (tokens stop seg))) (keys acc))
    as (new & -> & Hnew).
  exists new. split; [reflexivity|].
  intros k. rewrite Hnew, keys_Counter_In. reflexivity.
Qed.

(** ** Rankings without ties *)

Lemma sorted_unique l1 l2 :
  StronglySorted count_ge l1 -> StronglySorted count_ge l2 ->
  Permutation l1 l2 ->
  (forall a b, In a l1 -> In b l1 -> snd a = snd b -> a = b) ->
  l1 = l2.
Proof.
  intros H1. revert l2. induction H1 as [|x r1 Hr1 IH Hx]; intros l2 H2 Hp Hd.
  - apply Permutation_nil in Hp. now subst.
  - destruct l2 as [|y r2];
      [apply Permutation_sym, Permutation_nil in Hp; discriminate|].
    apply StronglySorted_inv in H2 as [Hr2 Hy].
    assert (Hyx : In y (x :: r1))
      by (eapply Permutation_in; [apply Permutation_sym, Hp | now left]).
    assert (Hxy : In x (y :: r2))
      by (eapply Permutation_in; [exact Hp | now left]).
    assert (E : x = y).
    { apply Hd; [now left | exact Hyx |].
      rewrite Forall_forall in Hx, Hy. unfold count_ge in *.
      destruct Hyx as [->|Hyx]; [reflexivity|].
      destruct Hxy as [->|Hxy]; [reflexivity|].
      specialize (Hx _ Hyx). specialize (Hy _ Hxy). lia. }
    subst y. f_equal. apply IH.
    + exact Hr2.
    + eapply Permutation_cons_inv. exact Hp.
    + intros a b Ha Hb. apply Hd; now right.
Qed.

Lemma most_common_equiv tbl1 tbl2 n :
  dict_wf tbl1 -> dict_wf tbl2 -> dict_equiv tbl1 tbl2 ->
  (forall a b, In a tbl1 -> In b tbl1 -> snd a = snd b -> a = b) ->
  most_common tbl1 n = most_common tbl2 n.
Proof.
  intros H1 H2 He Hd. unfold most_common, nlargest.
  destruct (n <=? 0); [reflexivity|]. f_equal.
  pose proof (sorted_desc_Permutation tbl1) as P1.
  pose proof (sorted_desc_Permutation tbl2) as P2.
  apply sorted_unique; try apply sorted_desc_sorted.
  - eapply Permutation_trans; [apply Permutation_sym; exact P1|].
    eapply Permutation_trans; [|exact P2].
    now apply dict_equiv_Permutation.
  - intros a b Ha Hb.
    apply Hd; apply (Permutation_in _ (Permutation_sym P1)); assumption.
Qed.

(** When no two entries of the table have the same count, the ranking does
    not depend on the order in which the table holds its entries: equal
    dictionaries are ranked alike. *)
Theorem most_common_without_ties (tbl1 tbl2 : dict) (n : Z) :
  dict_wf tbl1 -> dict_wf tbl2 -> dict_equiv tbl1 tbl2 ->
  (forall a b, In a tbl1 -> In b tbl1 -> snd a = snd b -> a = b) ->
  most_common tbl1 n = most_common tbl2 n.
Proof. apply most_common_equiv. Qed.

Lemma most_common_without_ties_witness :
  most_common [(lit "cat", 2); (lit "sat", 1)] 1
  = most_common [(lit "sat", 1); (lit "cat", 2)] 1.
Proof.
  apply (most_common_without_ties
           [(lit "cat", 2); (lit "sat", 1)] [(lit "sat", 1); (lit "cat", 2)] 1).
  - repeat constructor; simpl; intuition discriminate.
  - repeat constructor; simpl; intuition discriminate.
  - intros k. cbn [dict_get].
    destruct (str_eqb k (lit "cat")) eqn:E1;
      destruct (str_eqb k (lit "sat")) eqn:E2; try reflexivity.
    apply str_eqb_eq in E1, E2. subst. discriminate.
  - intros a b [<-|[<-|[]]] [<-|[<-|[]]]; simpl; intros E;
      try reflexivity; discriminate.
Defined.

(** ** The chart *)

Lemma chart_data_unzip tbl n :
  chart_data tbl n =
  (map fst (most_common tbl n), map snd (most_common tbl n)).
Proof. unfold chart_data. destruct (most_common tbl n); reflexivity. Qed.








(** How [main] ends otherwise: a failed download ends it with [SystemExit]
    before any counting; [--threads 0] ends it with the uncaught
    [ZeroDivisionError] of [map_reduce]; a negative [--threads], or a
    [--top] that is not positive, is no error and shows an empty chart;
    every other run shows a chart. *)
Theorem main_endings (stop : list str) (text : str) (top threads : Z) :
  (forall top' threads',
     main stop RequestException top' threads' = SystemExit) /\
  (threads = 0 ->
     main stop (ResponseText text) top threads = Uncaught ZeroDivisionError) /\
  (threads < 0 -> main stop (ResponseText text) top threads = Shown [] []) /\
  (threads <> 0 -> top <= 0 ->
     main stop (ResponseText text) top threads = Shown [] []) /\
  (threads <> 0 ->
     exists words counts,
       main stop (ResponseText text) top threads = Shown words counts).
Proof.
  repeat match goal with |- _ /\ _ => split end.
  - reflexivity.
  - intros ->. reflexivity.
  - intros H. unfold main. cbn [download_text].
    rewrite map_reduce_nonzero by lia.
    rewrite segments_negative by lia. cbn [run_threads fold_left].
    rewrite chart_data_unzip. unfold most_common, nlargest.
    destruct (top <=? 0); [reflexivity|].
    cbn [sorted_desc fold_right]. now rewrite firstn_nil.
  - intros H Htop. unfold main. cbn [download_text].
    rewrite map_reduce_nonzero by exact H.
    rewrite chart_data_unzip. unfold most_common, nlargest.
    destruct (Z.leb_spec top 0); [reflexivity | lia].
  - intros H. unfold main. cbn [download_text].
    rewrite map_reduce_nonzero by exact H. eauto.
Qed.

(** ** What a cut inside a word costs *)

Lemma push_run_nil_app h t : push_run h [] ++ t = push_run h t.
Proof. destruct h; reflexivity. Qed.

Lemma scan_from b : forall done cur,
  fst (fold_left scan_step b (done, cur))
    ++ push_run (snd (fold_left scan_step b (done, cur))) [] =
  done ++ push_run (cur ++ fst (runs_from b)) (snd (runs_from b)).
Proof.
  induction b as [|c b IH]; intros done cur.
  - simpl. now rewrite app_nil_r.
  - cbn [fold_left]. unfold scan_step at 2 4. cbn [fst snd].
    rewrite head_run_cons, later_runs_cons.
    destruct (is_word c).
    + rewrite IH, <- app_assoc. reflexivity.
    + rewrite IH. cbn [app]. rewrite app_nil_r, <- app_assoc.
      unfold word_runs. now rewrite push_run_nil_app.
Qed.

Lemma scan_word_runs x :
  word_runs x = fst (scan x) ++ push_run (snd (scan x)) [].
Proof. unfold scan. rewrite scan_from. reflexivity. Qed.

Lemma word_runs_app_scan a b :
  word_runs (a ++ b) =
  fst (scan a) ++ push_run (snd (scan a) ++ fst (runs_from b))
                           (snd (runs_from b)).
Proof.
  rewrite scan_word_runs. unfold scan. rewrite fold_left_app.
  fold (scan a). destruct (scan a) as [done cur]. apply scan_from.
Qed.

(** A cut changes the number of occurrences of a word among the runs by at
    most one down (the word that is cut) and two up (its two pieces). *)
Lemma occ_word_runs_app a b w :
  occ (word_runs (a ++ b)) w - 1 <= occ (word_runs a ++ word_runs b) w
  /\ occ (word_runs a ++ word_runs b) w <= occ (word_runs (a ++ b)) w + 2.
Proof.
  rewrite word_runs_app_scan, (scan_word_runs a).
  unfold word_runs at 1 2.
  destruct (scan a) as [done cur]. cbn [fst snd].
  destruct (runs_from b) as [hb tb]. cbn [fst snd].
  assert (Hnil : occ [] w = 0) by reflexivity.
  destruct cur as [|c cur];
    [cbn [app push_run]; rewrite !occ_app, Hnil; lia|].
  destruct hb as [|h hb].
  - rewrite app_nil_r. cbn [push_run].
    rewrite !occ_app, !occ_cons, Hnil. lia.
  - cbn [push_run app]. rewrite !occ_app, !occ_cons, Hnil.
    destruct (str_eqb w (c :: cur ++ h :: hb));
      destruct (str_eqb w (c :: cur)); destruct (str_eqb w (h :: hb)); lia.
Qed.

Lemma occ_tokens_app stop a b w :
  occ (tokens stop (a ++ b)) w - 1 <= occ (tokens stop a ++ tokens stop b) w
  /\ occ (tokens stop a ++ tokens stop b) w <= occ (tokens stop (a ++ b)) w + 2.
Proof.
  unfold tokens. rewrite !re_findall_words_runs, lower_app, <- filter_app.
  rewrite !occ_filter.
  destruct (negb (in_set stop w)); [apply occ_word_runs_app | lia].
Qed.

Lemma occ_tokens_segments stop a rest w :
  let cuts := Z.of_nat (List.length rest) in
  occ (tokens stop (List.concat (a :: rest))) w - cuts
    <= occ (flat_map (tokens stop) (a :: rest)) w
  /\ occ (flat_map (tokens stop) (a :: rest)) w
    <= occ (tokens stop (List.concat (a :: rest))) w + 2 * cuts.
Proof.
  revert a. induction rest as [|b rest IH]; intros a.
  - simpl. rewrite !app_nil_r. lia.
  - specialize (IH b). cbv zeta in *.
    cbn [flat_map List.concat] in *.
    pose proof (occ_tokens_app stop a (b ++ List.concat rest) w) as Hc.
    rewrite occ_app in *. rewrite (occ_app (tokens stop b)) in *.
    change (List.length (b :: rest)) with (S (List.length rest)).
    lia.
Qed.

(** Cutting the text for [n] workers moves the count of any word by at
    most [n - 1] down and [2 * (n - 1)] up from the count a single worker
    gets, whatever the order of the merges: each of the [n - 1] cuts splits
    at most one word in two. *)
Theorem map_reduce_cut_damage (stop : list str) (text : str) (n : Z)
    (tbl1 : dict) (order : list str) (w : str) :
  0 < n ->
  map_reduce stop text 1 = Return tbl1 ->
  Permutation order (segments text n) ->
  count_of tbl1 w - (n - 1)
    <= count_of (run_threads (worker_target stop) order []) w
    <= count_of tbl1 w + 2 * (n - 1).
Proof.
  intros Hpos H1 Hp.
  apply map_reduce_Return in H1 as [_ ->].
  assert (Hc : forall segs,
             count_of (run_threads (worker_target stop) segs []) w =
             occ (flat_map (tokens stop) segs) w).
  { intros segs. unfold count_of. rewrite run_threads_get.
    pose proof (occ_nonneg (flat_map (tokens stop) segs) w).
    destruct (Z.eqb_spec (occ (flat_map (tokens stop) segs) w) 0);
      simpl; lia. }
  rewrite !Hc, segments_one. cbn [flat_map]. rewrite app_nil_r.
  rewrite (occ_Permutation (flat_map (tokens stop) order)
                           (flat_map (tokens stop) (segments text n)))
    by apply Permutation_flat_map, Hp.
  pose proof (segments_concat text n Hpos) as Hcat.
  pose proof (segments_length text n) as Hlen.
  destruct (segments text n) as [|a rest]; [simpl in Hlen; lia|].
  pose proof (occ_tokens_segments stop a rest w) as Hb. cbv zeta in Hb.
  unfold str in *. rewrite Hcat in Hb. simpl List.length in Hlen.
  replace (Z.of_nat (List.length rest)) with (n - 1) in Hb by lia.
  lia.
Qed.

Lemma map_reduce_cut_damage_witness :
  count_of [(lit "catdog", 1)] (lit "cat") - (2 - 1)
    <= count_of (run_threads (worker_target stop_the_on)
                   [lit "dog"; lit "cat"] []) (lit "cat")
    <= count_of [(lit "catdog", 1)] (lit "cat") + 2 * (2 - 1).
Proof.
  apply (map_reduce_cut_damage stop_the_on (lit "catdog") 2).
  - lia.
  - reflexivity.
  - change (segments (lit "catdog") 2) with [lit "cat"; lit "dog"].
    apply Permutation_rev.
Defined.

(** ** The chart and the order of the merges *)

(** When the table has no two entries of the same count, the chart does not
    depend on the order in which the workers merged their counts. *)
Theorem chart_independent_of_merge_order (stop : list str) (text : str)
    (n top : Z) (tbl : dict) (order : list str) :
  map_reduce stop text n = Return tbl ->
  Permutation order (segments text n) ->
  (forall a b, In a tbl -> In b tbl -> snd a = snd b -> a = b) ->
  chart_data (run_threads (worker_target stop) order []) top =
  chart_data tbl top.
Proof.
  intros Hr Hp Hd. apply map_reduce_Return in Hr as [_ ->].
  rewrite !chart_data_unzip.
  rewrite (most_common_equiv
             (run_threads (worker_target stop) order [])
             (run_threads (worker_target stop) (segments text n) []) top);
    [reflexivity | | | |].
  - apply run_threads_wf. constructor.
  - apply run_threads_wf. constructor.
  - now apply run_threads_Permutation.
  - intros a b Ha Hb. apply Hd; eapply Permutation_in;
      try eassumption;
      apply dict_equiv_Permutation;
      try (apply run_threads_wf; constructor);
      now apply run_threads_Permutation.
Qed.

Lemma chart_independent_of_merge_order_witness :
  chart_data (run_threads (worker_target stop_the_on)
                [lit "dog dog."; lit "dog dog "; lit "cat dog "] []) 2
  = chart_data [(lit "cat", 1); (lit "dog", 5)] 2.
Proof.
  apply (chart_independent_of_merge_order stop_the_on
           (lit "cat dog dog dog dog dog.") 3).
  - reflexivity.
  - change (segments (lit "cat dog dog dog dog dog.") 3)
      with [lit "cat dog "; lit "dog dog "; lit "dog dog."].
    apply Permutation_rev.
  - intros a b [<-|[<-|[]]] [<-|[<-|[]]]; simpl; intros E;
      try reflexivity; discriminate.
Defined.

(** ** The lengths of the segments *)

Lemma span_length text lo hi :
  0 <= lo <= hi -> hi <= len text -> len (span text lo hi) = hi - lo.
Proof.
  intros H1 H2. unfold span, len in *.
  rewrite length_firstn, length_skipn. lia.
Qed.

(** For a positive worker count every segment but the last has
    [L div n] characters and the last has [L div n + L mod n]: the last
    worker gets up to [n - 1] characters more than the others. *)
Theorem segment_lengths (text : str) (n : Z) (i : Z) :
  0 < n -> 0 <= i < n ->
  len (segment text n i) =
  if i =? n - 1 then len text / n + len text mod n else len text / n.
Proof.
  intros Hpos Hi.
  destruct (bounds_ordered text n Hpos i Hi) as [Ho Hl].
  unfold segment. rewrite span_length by assumption.
  destruct (Z.eqb_spec i (n - 1)) as [->|Hne].
  - rewrite (last_bounds text n Hpos). cbn [fst snd].
    pose proof (Z.div_mod (len text) n ltac:(lia)). nia.
  - rewrite (inner_bounds text n Hpos) by lia. cbn [fst snd]. lia.
Qed.

Lemma segment_lengths_witness :
  len (segment (lit "abcdefgh") 3 2) = 8 / 3 + 8 mod 3.
Proof.
  apply (segment_lengths (lit "abcdefgh") 3 2); lia.
Defined.
